(** * streamz.dask: execution-substituting stream operators

    A shallow embedding of [streamz/dask.py]: the operators [map], [filter],
    [accumulate], [scatter], [gather] and [starmap] of a [DaskStream], each
    with its per-item [update] routine, over a model of the three
    collaborators the routines call: the remote executor client
    ([client.submit], [client.scatter], [client.gather]), the reference
    counters carried by an item's metadata ([_retain_refs], [_release_refs])
    and the emission primitive ([_emit]).

    Routines are computations in a small monad that threads the world
    (the executor's result store, the refcount table, the nodes' mutable
    attributes), may raise a Python exception, and records the calls made
    to the collaborators as a list of events. *)

From Stdlib Require Import ZArith Lia.
From stdpp Require Import base option list gmap strings.

Open Scope Z_scope.
Open Scope list_scope.

(** ** Python values *)

(** A handle ([distributed.Future]) is identified by its key; the model
    numbers keys in the order the client issues them. *)
Definition key := nat.
Bind Scope nat_scope with key.

Set Warnings "-register-all".
Inductive value : Type :=
| VNone
| VBool (b : bool)
| VInt (z : Z)
| VStr (s : string)
| VTuple (items : list value)
| VList (items : list value)
| VDict (items : list (string * value))
| VFuture (k : key).
Set Warnings "register-all".

Inductive exn : Type :=
| NameError (name : string)
| TypeError
| IndexError
| KeyError
| BadYieldError
| CancelledError
| RemoteError (msg : string).

Inductive result (A : Type) : Type :=
| Ok (a : A)
| Raise (e : exn).
Arguments Ok {A} a.
Arguments Raise {A} e.

Definition kwargs := list (string * value).

(** A Python callable: positional arguments, keyword arguments, and either
    a returned value or a raised exception. *)
Definition pyfun := list value -> kwargs -> result value.

Definition rbind {A B} (r : result A) (f : A -> result B) : result B :=
  match r with
  | Ok a => f a
  | Raise e => Raise e
  end.

Fixpoint rmap {A B} (f : A -> result B) (l : list A) : result (list B) :=
  match l with
  | [] => Ok []
  | a :: l' => rbind (f a) (fun b => rbind (rmap f l') (fun bs => Ok (b :: bs)))
  end.

(** Python truthiness, as tested by [if result:]. *)
Definition truthy (v : value) : bool :=
  match v with
  | VNone => false
  | VBool b => b
  | VInt z => negb (z =? 0)
  | VStr s => negb (String.eqb s EmptyString)
  | VTuple items | VList items => negb (Nat.eqb (length items) 0)
  | VDict items => negb (Nat.eqb (length items) 0)
  | VFuture _ => true
  end.

(** [container[index]] for a sequence and an integer index
    ([operator.getitem], and the subscript [future_as_list[0]]). *)
Definition seq_getitem (items : list value) (i : Z) : result value :=
  let n := Z.of_nat (length items) in
  let j := if i <? 0 then i + n else i in
  if (j <? 0) || (n <=? j) then Raise IndexError
  else match items !! Z.to_nat j with
       | Some v => Ok v
       | None => Raise IndexError
       end.

(** The characters of a string, each a string of length one. *)
Definition characters (s : string) : list value :=
  List.map (fun c => VStr (String c EmptyString)) (String.list_ascii_of_string s).

Definition py_getitem (container index : value) : result value :=
  match container, index with
  | VTuple items, VInt i => seq_getitem items i
  | VList items, VInt i => seq_getitem items i
  | VStr s, VInt i => seq_getitem (characters s) i
  | VDict items, VStr s =>
      match List.find (fun kv => String.eqb (fst kv) s) items with
      | Some kv => Ok (snd kv)
      | None => Raise KeyError
      end
  | VDict _, _ => Raise KeyError
  | _, _ => Raise TypeError
  end.

(** [operator.getitem] as a callable that can be submitted. *)
Definition getitem : pyfun := fun args _ =>
  match args with
  | [container; index] => py_getitem container index
  | _ => Raise TypeError
  end.

(** The items of a value unpacked as star-arguments. *)
Definition unpack (v : value) : result (list value) :=
  match v with
  | VTuple items | VList items => Ok items
  | VDict items => Ok (List.map (fun kv => VStr (fst kv)) items)
  | VStr s => Ok (characters s)
  | _ => Raise TypeError
  end.

(** [dask.utils.apply(func, args, kwargs)] calls [func] on the unpacked
    [args] and [kwargs].  The function is a plain Python object among the
    submitted arguments; the model binds it and leaves [args] and [kwargs]
    as the submitted values. *)
Definition apply (func : pyfun) : pyfun := fun args _ =>
  match args with
  | [a; VDict kw] => rbind (unpack a) (fun xs => func xs kw)
  | [a; VNone] => rbind (unpack a) (fun xs => func xs [])
  | _ => Raise TypeError
  end.

(** ** The world *)

(** Acknowledgment tokens: the entries of an item's metadata. *)
Definition token := nat.
Bind Scope nat_scope with token.
Definition metadata := list token.

(** Identity of a stream node (the Python object [self]). *)
Definition node_id := nat.
Bind Scope nat_scope with node_id.

Record World : Type := mkWorld {
  futures : list (result value);   (* executor store: key -> outcome *)
  refs : gmap token positive;      (* refcount table: outstanding retains *)
  acked : list token;              (* acknowledgments fired, in order *)
  attrs : gmap node_id value       (* [self.state] of fold nodes *)
}.

Definition set_futures (f : list (result value)) (w : World) : World :=
  mkWorld f (refs w) (acked w) (attrs w).
Definition set_refs (r : gmap token positive) (w : World) : World :=
  mkWorld (futures w) r (acked w) (attrs w).
Definition set_acked (a : list token) (w : World) : World :=
  mkWorld (futures w) (refs w) a (attrs w).
Definition set_attrs (a : gmap node_id value) (w : World) : World :=
  mkWorld (futures w) (refs w) (acked w) a.

Definition empty_world : World := mkWorld [] ∅ [] ∅.

(** Calls made to the collaborators. *)
Inductive event : Type :=
| ERetain (t : token)
| ERelease (t : token)
| ESubmit (f : pyfun) (args : list value) (kw : kwargs) (k : key)
| EScatter (data : value)
| EGather (handles : value)
| EAwait (awaited : value)
| EEmit (v : value) (md : metadata)
| ECall (f : pyfun) (args : list value).

(** ** The monad of update routines *)

Record Run (A : Type) : Type := mkRun {
  outcome : result A;
  final : World;
  events : list event
}.
Arguments mkRun {A} _ _ _.
Arguments outcome {A} _.
Arguments final {A} _.
Arguments events {A} _.

Definition M (A : Type) : Type := World -> Run A.

Definition ret {A} (a : A) : M A := fun w => mkRun (Ok a) w [].
Definition raise {A} (e : exn) : M A := fun w => mkRun (Raise e) w [].

Definition bind {A B} (m : M A) (f : A -> M B) : M B := fun w =>
  let r := m w in
  match outcome r with
  | Ok a => let r' := f a (final r) in
            mkRun (outcome r') (final r') (events r ++ events r')
  | Raise e => mkRun (Raise e) (final r) (events r)
  end.

(** [try: body finally: cleanup]: the cleanup runs on every exit of the
    body; the body's outcome stands unless the cleanup itself raises. *)
Definition try_finally {A} (body : M A) (cleanup : M unit) : M A := fun w =>
  let r := body w in
  let c := cleanup (final r) in
  match outcome c with
  | Ok _ => mkRun (outcome r) (final c) (events r ++ events c)
  | Raise e => mkRun (Raise e) (final c) (events r ++ events c)
  end.

Definition lift {A} (r : result A) : M A := fun w => mkRun r w [].
Definition tell (e : event) : M unit := fun w => mkRun (Ok tt) w [e].
Definition get_world : M World := fun w => mkRun (Ok w) w [].
Definition modify (f : World -> World) : M unit := fun w => mkRun (Ok tt) (f w) [].

Declare Scope m_scope.
Delimit Scope m_scope with M.
Notation "'let!' x ':=' m 'in' k" := (bind m (fun x => k))
  (at level 10, x name, m at level 100, k at level 200) : m_scope.
Notation "'exec' m 'in' k" := (bind m (fun _ => k))
  (at level 10, m at level 100, k at level 200) : m_scope.
Open Scope m_scope.

Fixpoint mapM {A B} (f : A -> M B) (l : list A) : M (list B) :=
  match l with
  | [] => ret []
  | a :: l' => let! b := f a in let! bs := mapM f l' in ret (b :: bs)
  end.

Fixpoint forM_ {A} (f : A -> M unit) (l : list A) : M unit :=
  match l with
  | [] => ret tt
  | a :: l' => exec f a in forM_ f l'
  end.

(** ** The remote executor client *)

(** Modelled from the spec: the Remote Executor Client is an external
    collaborator (section 6: [submit], [resolve_all], [scatter]); the store
    holds, for every handle issued, the outcome of its remote computation.
    [resolve] is [resolve_all]: handles in a nested structure are replaced
    by their values, and it fails if a referenced computation failed. *)
Fixpoint resolve (store : list (result value)) (v : value) : result value :=
  match v with
  | VFuture k =>
      match store !! k with
      | Some o => o
      | None => Raise CancelledError
      end
  | VTuple items => rbind (rmap (resolve store) items) (fun ys => Ok (VTuple ys))
  | VList items => rbind (rmap (resolve store) items) (fun ys => Ok (VList ys))
  | VDict items =>
      rbind (rmap (fun kv => rbind (resolve store (snd kv))
                                   (fun y => Ok (fst kv, y))) items)
            (fun ys => Ok (VDict ys))
  | _ => Ok v
  end.

Definition resolve_kwargs (store : list (result value)) (kw : kwargs)
  : result kwargs :=
  rmap (fun kv => rbind (resolve store (snd kv)) (fun y => Ok (fst kv, y))) kw.

(** The outcome of running [f] remotely: handles among the arguments stand
    for their values. *)
Definition remote_call (store : list (result value)) (f : pyfun)
    (args : list value) (kw : kwargs) : result value :=
  rbind (rmap (resolve store) args) (fun args' =>
  rbind (resolve_kwargs store kw) (fun kw' => f args' kw')).

(** Modelled from the spec: [client.submit(function, *args, **options)]
    returns a new handle at once; the function runs on the executor. *)
Definition client_submit (f : pyfun) (args : list value) (kw : kwargs)
  : M value := fun w =>
  let k := length (futures w) in
  mkRun (Ok (VFuture k))
        (set_futures (futures w ++ [remote_call (futures w) f args kw]) w)
        [ESubmit f args kw k].

Definition handles_from (n : nat) (items : list value) : list value :=
  imap (fun i _ => VFuture (n + i)%nat) items.

(** Modelled from the spec: [client.scatter] moves local values into the
    executor's store: a sequence gives one handle per element, a mapping
    one handle per entry, any other value a single handle. *)
Definition client_scatter (data : value) : M value := fun w =>
  let n := length (futures w) in
  match data with
  | VList items =>
      mkRun (Ok (VList (handles_from n items)))
            (set_futures (futures w ++ List.map Ok items) w) [EScatter data]
  | VTuple items =>
      mkRun (Ok (VTuple (handles_from n items)))
            (set_futures (futures w ++ List.map Ok items) w) [EScatter data]
  | VDict items =>
      mkRun (Ok (VDict (imap (fun i kv => (fst kv, VFuture (n + i)%nat)) items)))
            (set_futures (futures w ++ List.map (fun kv => Ok (snd kv)) items) w)
            [EScatter data]
  | _ =>
      mkRun (Ok (VFuture n)) (set_futures (futures w ++ [Ok data]) w)
            [EScatter data]
  end.

(** Modelled from the spec: [client.gather] is [resolve_all]. *)
Definition client_gather (handles : value) : M value := fun w =>
  mkRun (resolve (futures w) handles) w [EGather handles].

(** Modelled from the spec: waiting for one handle, as [yield future] does
    inside a [gen.coroutine], is [resolve_all] on that handle: its value,
    or the exception of its computation. *)
Definition await_future (v : value) : M value := fun w =>
  match v with
  | VFuture _ => mkRun (resolve (futures w) v) w [EAwait v]
  | _ => mkRun (Raise BadYieldError) w []
  end.

(** ** Reference counting of metadata tokens *)

(** Modelled from the spec: the Refcount Table of section 3 maps each
    active token to its outstanding retain count; the reference counter
    itself is defined in [streamz/core.py].  An entry is created on the
    first retain and incremented on each later one. *)
Definition retain_tbl (t : token) (m : gmap token positive)
  : gmap token positive :=
  <[t := match m !! t with
         | Some p => Pos.succ p
         | None => 1%positive
         end]> m.

(** Modelled from the spec: a release decrements the entry and deletes it
    when the count reaches zero (section 3). *)
Definition release_tbl (t : token) (m : gmap token positive)
  : gmap token positive :=
  match m !! t with
  | Some 1%positive => delete t m
  | Some p => <[t := Pos.pred p]> m
  | None => m
  end.

Definition retain_count (t : token) (w : World) : World :=
  set_refs (retain_tbl t (refs w)) w.

(** Modelled from the spec: the acknowledgment fires when the count of a
    token reaches zero (section 3). *)
Definition release_count (t : token) (w : World) : World :=
  set_acked (match refs w !! t with
             | Some 1%positive => acked w ++ [t]
             | _ => acked w
             end)
            (set_refs (release_tbl t (refs w)) w).

(** Modelled from the spec: [Stream._retain_refs] and [Stream._release_refs]
    are defined in [streamz/core.py]; section 3 gives the lifecycle of the
    Refcount Table: an entry is created on the first retain of a token,
    incremented on each later retain, decremented on release, and deleted,
    firing the acknowledgment, when the count reaches zero. *)
Definition _retain_refs (md : metadata) : M unit :=
  forM_ (fun t => exec tell (ERetain t) in modify (retain_count t)) md.

Definition _release_refs (md : metadata) : M unit :=
  forM_ (fun t => exec tell (ERelease t) in modify (release_count t)) md.

(** ** Emission *)

(** A downstream consumer is the [update] routine of a downstream node. *)
Definition consumer := value -> metadata -> M value.

(** Modelled from the spec: [Stream._emit] is defined in [streamz/core.py];
    sections 2 and 6: the emission primitive hands the value and its
    metadata to every downstream consumer and completes when all of them
    have completed.  The consumers run one after the other, in the order of
    [self.downstreams]; the exception of a consumer ends the emission. *)
Definition _emit (downstreams : list consumer) (x : value) (md : metadata)
  : M value :=
  exec tell (EEmit x md) in
  let! rs := mapM (fun d => d x md) downstreams in
  ret (VList rs).

(** ** Name resolution in the module *)

Inductive pyobj : Type :=
| OFun (f : pyfun)
| OOther.

(** The names bound at the top level of [streamz/dask.py]: its imports and
    the classes it defines. *)
Definition module_globals : list (string * pyobj) :=
  [ ("absolute_import", OOther); ("division", OOther);
    ("print_function", OOther);
    ("getitem", OFun getitem);
    ("gen", OOther);
    ("apply", OOther);
    ("default_client", OOther);
    ("distributed", OOther);
    ("tqdm", OOther);
    ("Stream", OOther);
    ("core", OOther); ("sources", OOther);
    ("DaskStream", OOther);
    ("map", OOther); ("filter", OOther); ("accumulate", OOther);
    ("scatter", OOther); ("gather", OOther); ("starmap", OOther);
    ("flatten", OOther); ("buffer", OOther); ("combine_latest", OOther);
    ("delay", OOther); ("latest", OOther); ("partition", OOther);
    ("rate_limit", OOther); ("sliding_window", OOther);
    ("timed_window", OOther); ("union", OOther); ("zip", OOther);
    ("filenames", OOther); ("from_textfile", OOther) ].

Definition lookup_name (ns : list (string * pyobj)) (name : string)
  : option pyobj :=
  snd <$> List.find (fun kv => String.eqb (fst kv) name) ns.

(** A free name in a method body is looked up in the module's globals,
    then in the builtins. *)
Definition load_global (builtins : list (string * pyobj)) (name : string)
  : result pyobj :=
  match lookup_name module_globals name with
  | Some o => Ok o
  | None =>
      match lookup_name builtins name with
      | Some o => Ok o
      | None => Raise (NameError name)
      end
  end.

(** Calling an object. *)
Definition as_callable (o : pyobj) : pyfun :=
  match o with
  | OFun f => f
  | OOther => fun _ _ => Raise TypeError
  end.

Definition kwargs_get (name : string) (default : value) (kw : kwargs) : value :=
  match List.find (fun kv => String.eqb (fst kv) name) kw with
  | Some kv => snd kv
  | None => default
  end.

Definition kwargs_del (name : string) (kw : kwargs) : kwargs :=
  List.filter (fun kv => negb (String.eqb (fst kv) name)) kw.

(** ** The operators *)

(** *** map *)

Record map_node : Type := mkMap {
  map_func : pyfun;
  map_kwargs : kwargs;
  map_args : list value;
  map_downstreams : list consumer
}.

Definition map_init (func : pyfun) (args : list value) (kw : kwargs)
    (downstreams : list consumer) : map_node :=
  mkMap func kw args downstreams.

Definition map_update (self : map_node) (x : value) (md : metadata) : M value :=
  let! result := client_submit (map_func self) (x :: map_args self)
                               (map_kwargs self) in
  _emit (map_downstreams self) result md.

(** *** filter *)

Record filter_node : Type := mkFilter {
  filter_predicate : pyfun;
  filter_kwargs : kwargs;
  filter_args : list value;
  filter_stream_name : value;
  filter_downstreams : list consumer
}.

(** [filter.__init__]: [predicate] is [None] or a callable. *)
Definition filter_init (builtins : list (string * pyobj))
    (predicate : option pyfun) (args : list value) (kw : kwargs)
    (downstreams : list consumer) : result filter_node :=
  rbind (match predicate with
         | None => rbind (load_global builtins "_truthy")
                         (fun o => Ok (as_callable o))
         | Some p => Ok p
         end) (fun predicate =>
  let stream_name := kwargs_get "stream_name" VNone kw in
  let kw := kwargs_del "stream_name" kw in
  Ok (mkFilter predicate kw args stream_name downstreams)).

Definition filter_update (self : filter_node) (x : value) (md : metadata)
  : M value :=
  try_finally
    (exec _retain_refs md in
     let! pending := client_submit (filter_predicate self)
                                   (x :: filter_args self)
                                   (filter_kwargs self) in
     let! result := await_future pending in
     if truthy result then
       let! r := _emit (filter_downstreams self) x md in
       ret r
     else ret VNone)
    (_release_refs md).

(** *** accumulate *)

(** [self.state] lives in the world at the node's identity; the sentinel
    [core.no_default] is the absence of a binding. *)
Record accumulate_node : Type := mkAccumulate {
  acc_self : node_id;
  acc_func : pyfun;
  acc_returns_state : bool;
  acc_kwargs : kwargs;
  acc_with_state : value;
  acc_downstreams : list consumer
}.

Definition set_state (self : accumulate_node) (state : option value) : M unit :=
  modify (fun w =>
    set_attrs (match state with
               | Some v => <[acc_self self := v]> (attrs w)
               | None => delete (acc_self self) (attrs w)
               end) w).

Definition get_state (self : accumulate_node) : M (option value) :=
  let! w := get_world in ret (attrs w !! acc_self self).

(** [accumulate.__init__]: [start] is [None] for [core.no_default]. The
    keyword [with_state] is popped from the very dictionary kept as
    [self.kwargs]. *)
Definition accumulate_init (self : node_id) (func : pyfun)
    (start : option value) (returns_state : bool) (kw : kwargs)
    (downstreams : list consumer) : M accumulate_node :=
  let node := mkAccumulate self func returns_state
                (kwargs_del "with_state" kw)
                (kwargs_get "with_state" (VBool false) kw) downstreams in
  exec set_state node start in
  ret node.

Definition accumulate_update (self : accumulate_node) (x : value)
    (md : metadata) : M value :=
  let! current := get_state self in
  match current with
  | None =>
      exec set_state self (Some x) in
      if truthy (acc_with_state self) then
        let! state := get_state self in
        _emit (acc_downstreams self) (VTuple [default VNone state; x]) md
      else
        _emit (acc_downstreams self) x md
  | Some state0 =>
      let! result := client_submit (acc_func self) [state0; x]
                                   (acc_kwargs self) in
      let! sr :=
        (if acc_returns_state self then
           let! state := client_submit getitem [result; VInt 0] [] in
           let! result := client_submit getitem [result; VInt 1] [] in
           ret (state, result)
         else ret (result, result)) in
      exec set_state self (Some (fst sr)) in
      if truthy (acc_with_state self) then
        let! state := get_state self in
        _emit (acc_downstreams self) (VTuple [default VNone state; snd sr]) md
      else
        _emit (acc_downstreams self) (snd sr) md
  end.

(** *** scatter *)

Record scatter_node : Type := mkScatter {
  scatter_downstreams : list consumer
}.

Definition scatter_update (self : scatter_node) (x : value) (md : metadata)
  : M value :=
  exec _retain_refs md in
  let! future_as_list := client_scatter (VList [x]) in
  let! future := lift (py_getitem future_as_list (VInt 0)) in
  let! f := _emit (scatter_downstreams self) future md in
  exec _release_refs md in
  ret f.

(** *** gather *)

Record gather_node : Type := mkGather {
  gather_downstreams : list consumer
}.

Definition gather_update (self : gather_node) (x : value) (md : metadata)
  : M value :=
  exec _retain_refs md in
  let! result := client_gather x in
  let! result2 := _emit (gather_downstreams self) result md in
  exec _release_refs md in
  ret result2.

(** *** starmap *)

Record starmap_node : Type := mkStarmap {
  starmap_func : pyfun;
  starmap_kwargs : kwargs;
  starmap_stream_name : value;
  starmap_downstreams : list consumer
}.

Definition starmap_init (func : pyfun) (kw : kwargs)
    (downstreams : list consumer) : starmap_node :=
  mkStarmap func (kwargs_del "stream_name" kw)
            (kwargs_get "stream_name" VNone kw) downstreams.

Definition starmap_update (self : starmap_node) (x : value) (md : metadata)
  : M value :=
  let! result := client_submit (apply (starmap_func self))
                               [x; VDict (starmap_kwargs self)] [] in
  _emit (starmap_downstreams self) result md.

(** ** Local consumers *)

(** A sink calls a local function on each item it receives. *)
Definition sink (f : pyfun) : consumer := fun x md =>
  exec tell (ECall f [x]) in
  lift (f [x] []).

Definition identity : pyfun := fun args _ =>
  match args with
  | [x] => Ok x
  | _ => Raise TypeError
  end.

Definition failing (e : exn) : pyfun := fun _ _ => Raise e.

(** ** The base class *)

Definition kwargs_has (name : string) (kw : kwargs) : bool :=
  existsb (fun kv => String.eqb (fst kv) name) kw.

(** [kwargs[name] = v]: the entry is replaced where it stands, or added at
    the end. *)
Fixpoint kwargs_set (name : string) (v : value) (kw : kwargs) : kwargs :=
  match kw with
  | [] => [(name, v)]
  | kv :: kw' =>
      if String.eqb (fst kv) name then (fst kv, v) :: kw'
      else kv :: kwargs_set name v kw'
  end.

(** [DaskStream.__init__]: the options it hands on to [Stream.__init__]. *)
Definition DaskStream_init (kw : kwargs) : kwargs :=
  kwargs_set "ensure_io_loop" (VBool true) kw.

(** ** Vocabulary of the specification *)

(** [closed n v]: every handle inside [v] was issued among the first [n];
    a local value holds no handle at all. *)
Fixpoint closed (n : nat) (v : value) : bool :=
  match v with
  | VFuture k => Nat.ltb k n
  | VTuple items | VList items => forallb (closed n) items
  | VDict items => forallb (fun kv => closed n (snd kv)) items
  | _ => true
  end.

Definition local (v : value) : bool := closed 0 v.

Definition closed_kwargs (n : nat) (kw : kwargs) : bool :=
  forallb (fun kv => closed n (snd kv)) kw.

(** The world after the retains, and after the releases, of a metadata
    sequence. *)
Definition retain_all (md : metadata) (w : World) : World :=
  foldl (fun w t => retain_count t w) w md.

Definition release_all (md : metadata) (w : World) : World :=
  foldl (fun w t => release_count t w) w md.

(** How many times a token occurs in a metadata sequence. *)
Definition occurrences (t : token) (md : metadata) : nat :=
  length (List.filter (Nat.eqb t) md).

(** Outstanding retains of a token. *)
Definition outstanding (m : gmap token positive) (t : token) : nat :=
  match m !! t with
  | Some p => Pos.to_nat p
  | None => 0
  end.

Definition is_retain (t : token) (e : event) : bool :=
  match e with
  | ERetain t' => Nat.eqb t t'
  | _ => false
  end.

Definition is_release (t : token) (e : event) : bool :=
  match e with
  | ERelease t' => Nat.eqb t t'
  | _ => false
  end.

Definition is_emit (e : event) : bool :=
  match e with
  | EEmit _ _ => true
  | _ => false
  end.

Definition no_emit (evs : list event) : bool :=
  forallb (fun e => negb (is_emit e)) evs.

Definition retains (t : token) (evs : list event) : nat :=
  length (List.filter (is_retain t) evs).

Definition releases (t : token) (evs : list event) : nat :=
  length (List.filter (is_release t) evs).

(** The verdict of the filter's predicate on an item: the outcome of its
    remote computation. *)
Definition verdict (self : filter_node) (x : value) (w : World)
  : result value :=
  remote_call (futures w) (filter_predicate self) (x :: filter_args self)
              (filter_kwargs self).

Definition passes (self : filter_node) (x : value) (w : World) : bool :=
  match verdict self x w with
  | Ok v => truthy v
  | Raise _ => false
  end.

(** A run preceded by earlier calls. *)
Definition prepend {A} (own : list event) (r : Run A) : Run A :=
  mkRun (outcome r) (final r) (own ++ events r).

(** A routine that, after the calls [own] that lead to the world [w1],
    returns what the emission of [v] returns. *)
Definition then_emit (own : list event) (downstreams : list consumer)
    (v : value) (md : metadata) (w1 : World) : Run value :=
  prepend own (_emit downstreams v md w1).

(** The same with the tokens released once the emission has returned, as
    [scatter.update] and [gather.update] are written: a failing emission
    leaves the routine before the release. *)
Definition then_emit_release (own : list event) (downstreams : list consumer)
    (v : value) (md : metadata) (w1 : World) : Run value :=
  let e := _emit downstreams v md w1 in
  match outcome e with
  | Ok r => mkRun (Ok r) (release_all md (final e))
                  (own ++ events e ++ (ERelease <$> md))
  | Raise ex => mkRun (Raise ex) (final e) (own ++ events e)
  end.

(** The same inside [try ... finally], as [filter.update] is written. *)
Definition then_emit_finally (own : list event) (downstreams : list consumer)
    (v : value) (md : metadata) (w1 : World) : Run value :=
  let e := _emit downstreams v md w1 in
  mkRun (outcome e) (release_all md (final e))
        (own ++ events e ++ (ERelease <$> md)).

(** A consumer that leaves alone the handles already issued and the state
    of the node [self]. *)
Definition quiet (self : node_id) (d : consumer) : Prop :=
  forall v md w,
    (exists more, futures (final (d v md w)) = futures w ++ more)
    /\ attrs (final (d v md w)) !! self = attrs w !! self.

(** A consumer that returns, whatever it is handed. *)
Definition reliable (d : consumer) : Prop :=
  forall v md w, exists r, outcome (d v md w) = Ok r.

Definition is_submit (e : event) : bool :=
  match e with
  | ESubmit _ _ _ _ => true
  | _ => false
  end.

(** The number of submissions to the client in a run. *)
Definition submissions (evs : list event) : nat :=
  length (List.filter is_submit evs).

(** The values handed to the emission primitive in a run. *)
Definition emitted (evs : list event) : list value :=
  flat_map (fun e => match e with
                     | EEmit v _ => [v]
                     | _ => []
                     end) evs.

(** Items pushed through a node one after the other. *)
Definition feed (update : value -> metadata -> M value) (md : metadata)
    (items : list value) : M (list value) :=
  mapM (fun x => update x md) items.

(** What one step of the fold computes from the value of the state and
    the next input: [f(S, x)], with handles in [x] and in the options
    standing for their values. *)
Definition fold_call (store : list (result value)) (f : pyfun) (kw : kwargs)
    (s : result value) (x : value) : result value :=
  rbind s (fun s' =>
  rbind (resolve store x) (fun x' =>
  rbind (resolve_kwargs store kw) (fun kw' => f [s'; x'] kw'))).

Definition item_of (i : Z) (r : result value) : result value :=
  rbind r (fun p => py_getitem p (VInt i)).

(** The next state, and the output, of one step of a fold node. *)
Definition next_state (store : list (result value)) (self : accumulate_node)
    (s : result value) (x : value) : result value :=
  let r := fold_call store (acc_func self) (acc_kwargs self) s x in
  if acc_returns_state self then item_of 0 r else r.

Definition next_output (store : list (result value)) (self : accumulate_node)
    (s : result value) (x : value) : result value :=
  let r := fold_call store (acc_func self) (acc_kwargs self) s x in
  if acc_returns_state self then item_of 1 r else r.

(** The running left fold over the inputs. *)
Definition running_fold (store : list (result value)) (self : accumulate_node)
    (s : result value) (items : list value) : result value :=
  foldl (next_state store self) s items.

(** What a fold node hands to the emission primitive. *)
Definition fold_payload (self : accumulate_node) (state output : value)
  : value :=
  if truthy (acc_with_state self) then VTuple [state; output] else output.

(** Whether a predicate keeps an item, and what a filter node with one
    local consumer returns for it. *)
Definition keeps (p : pyfun) (args : list value) (kw : kwargs) (x : value)
  : bool :=
  match p (x :: args) kw with
  | Ok b => truthy b
  | Raise _ => false
  end.

Definition filtered (p : pyfun) (args : list value) (kw : kwargs) (x : value)
  : result value :=
  rbind (p (x :: args) kw)
        (fun b => Ok (if truthy b then VList [x] else VNone)).

(** The values of a running fold, one per input after the first, up to
    the first failure. *)
Fixpoint scan (f : pyfun) (kw : kwargs) (acc : value) (xs : list value)
  : result (list value) :=
  match xs with
  | [] => Ok []
  | x :: xs' =>
      rbind (f [acc; x] kw) (fun acc' =>
      rbind (scan f kw acc' xs') (fun rest => Ok (acc' :: rest)))
  end.

(** What an update routine returns when its only consumer is a gather
    node whose only consumer is a local sink that returned [y]. *)
Definition delivered (y : value) : value := VList [VList [y]].

(** A fold node in the default configuration (a function that returns the
    state, no tuples) followed by a gather node and a local sink. *)
Definition fold_then_gather (self : node_id) (f : pyfun) (kw : kwargs)
  : accumulate_node :=
  mkAccumulate self f false kw (VBool false)
               [gather_update (mkGather [sink identity])].

(** ** Functions and nodes used in examples *)

Definition double : pyfun := fun args _ =>
  match args with
  | [VInt z] => Ok (VInt (2 * z))
  | _ => Raise TypeError
  end.

Definition add : pyfun := fun args _ =>
  match args with
  | [VInt a; VInt b] => Ok (VInt (a + b))
  | _ => Raise TypeError
  end.

Definition is_positive : pyfun := fun args _ =>
  match args with
  | [VInt a] => Ok (VBool (0 <? a))
  | _ => Raise TypeError
  end.

(** A fold function that returns a [(state, output)] pair. *)
Definition sum_and_product : pyfun := fun args _ =>
  match args with
  | [VInt s; VInt x] => Ok (VTuple [VInt (s + x); VInt (s * x)])
  | _ => Raise TypeError
  end.

(** The builtin names of Python 3 that are functions or constants. *)
Definition python_builtins : list (string * pyobj) :=
  List.map (fun n => (n, OOther))
    [ "abs"; "all"; "any"; "ascii"; "bin"; "bool"; "breakpoint"; "bytearray";
      "bytes"; "callable"; "chr"; "classmethod"; "compile"; "complex";
      "delattr"; "dict"; "dir"; "divmod"; "enumerate"; "eval"; "exec";
      "filter"; "float"; "format"; "frozenset"; "getattr"; "globals";
      "hasattr"; "hash"; "help"; "hex"; "id"; "input"; "int"; "isinstance";
      "issubclass"; "iter"; "len"; "list"; "locals"; "map"; "max";
      "memoryview"; "min"; "next"; "object"; "oct"; "open"; "ord"; "pow";
      "print"; "property"; "range"; "repr"; "reversed"; "round"; "set";
      "setattr"; "slice"; "sorted"; "staticmethod"; "str"; "sum"; "super";
      "tuple"; "type"; "vars"; "zip"; "__import__"; "None"; "True"; "False";
      "Ellipsis"; "NotImplemented"; "__debug__" ].

(** * Properties *)

(** ** Values and resolution *)

(** Induction on values that reaches the items of containers. *)
Lemma value_ind_strong (P : value -> Prop) :
  P VNone ->
  (forall b, P (VBool b)) ->
  (forall z, P (VInt z)) ->
  (forall s, P (VStr s)) ->
  (forall items, Forall P items -> P (VTuple items)) ->
  (forall items, Forall P items -> P (VList items)) ->
  (forall items, Forall (fun kv => P (snd kv)) items -> P (VDict items)) ->
  (forall k, P (VFuture k)) ->
  forall v, P v.
Proof.
  intros HN HB HI HS HT HL HD HF.
  fix IH 1. intros [ | b | z | s | items | items | items | k ].
  - exact HN.
  - apply HB.
  - apply HI.
  - apply HS.
  - apply HT. induction items as [ | x items IHitems ]; constructor.
    + apply IH.
    + exact IHitems.
  - apply HL. induction items as [ | x items IHitems ]; constructor.
    + apply IH.
    + exact IHitems.
  - apply HD. induction items as [ | [s x] items IHitems ]; constructor.
    + apply IH.
    + exact IHitems.
  - apply HF.
Qed.

Lemma rmap_ext {A B} (f g : A -> result B) (l : list A) :
  Forall (fun a => f a = g a) l -> rmap f l = rmap g l.
Proof.
  induction 1 as [ | a l Ha _ IH ]; simpl.
  - reflexivity.
  - rewrite Ha, IH. reflexivity.
Qed.

Lemma rmap_ok {A} (f : A -> result A) (l : list A) :
  Forall (fun a => f a = Ok a) l -> rmap f l = Ok l.
Proof.
  induction 1 as [ | a l Ha _ IH ]; simpl.
  - reflexivity.
  - rewrite Ha, IH. reflexivity.
Qed.

Lemma closed_mono n n' v : (n <= n')%nat -> closed n v = true -> closed n' v = true.
Proof.
  intros Hle. induction v as [ | | | | items IH | items IH | items IH | k ]
    using value_ind_strong; simpl; try done.
  - rewrite !forallb_forall. intros H x Hx.
    rewrite Forall_forall in IH. apply IH; [ by apply list_elem_of_In | by apply H ].
  - rewrite !forallb_forall. intros H x Hx.
    rewrite Forall_forall in IH. apply IH; [ by apply list_elem_of_In | by apply H ].
  - rewrite !forallb_forall. intros H x Hx.
    rewrite Forall_forall in IH. apply IH; [ by apply list_elem_of_In | by apply H ].
  - intros Hk. apply Nat.ltb_lt in Hk. apply Nat.ltb_lt. lia.
Qed.

(** Handles already issued keep their meaning when the store grows. *)
Lemma resolve_app store more v :
  closed (length store) v = true ->
  resolve (store ++ more) v = resolve store v.
Proof.
  induction v as [ | | | | items IH | items IH | items IH | k ]
    using value_ind_strong; simpl; try done.
  - intros H. rewrite forallb_forall in H.
    rewrite (rmap_ext (resolve (store ++ more)) (resolve store)); [ done | ].
    rewrite Forall_forall in IH |- *. intros x Hx.
    apply IH; [ done | apply H; by apply list_elem_of_In ].
  - intros H. rewrite forallb_forall in H.
    rewrite (rmap_ext (resolve (store ++ more)) (resolve store)); [ done | ].
    rewrite Forall_forall in IH |- *. intros x Hx.
    apply IH; [ done | apply H; by apply list_elem_of_In ].
  - intros H. rewrite forallb_forall in H.
    erewrite rmap_ext; [ reflexivity | ].
    rewrite Forall_forall in IH |- *. intros x Hx. simpl.
    rewrite IH; [ done | done | apply H; by apply list_elem_of_In ].
  - intros Hk. apply Nat.ltb_lt in Hk. by rewrite lookup_app_l.
Qed.

Lemma resolve_kwargs_app store more kw :
  closed_kwargs (length store) kw = true ->
  resolve_kwargs (store ++ more) kw = resolve_kwargs store kw.
Proof.
  unfold closed_kwargs, resolve_kwargs. intros H. rewrite forallb_forall in H.
  apply rmap_ext. rewrite Forall_forall. intros kv Hkv.
  rewrite resolve_app; [ done | apply H; by apply list_elem_of_In ].
Qed.

(** A local value is its own resolution. *)
Lemma resolve_local store v : local v = true -> resolve store v = Ok v.
Proof.
  unfold local.
  induction v as [ | | | | items IH | items IH | items IH | k ]
    using value_ind_strong; simpl; try done.
  - intros H. rewrite forallb_forall in H. rewrite rmap_ok; [ done | ].
    rewrite Forall_forall in IH |- *. intros x Hx.
    apply IH; [ done | apply H; by apply list_elem_of_In ].
  - intros H. rewrite forallb_forall in H. rewrite rmap_ok; [ done | ].
    rewrite Forall_forall in IH |- *. intros x Hx.
    apply IH; [ done | apply H; by apply list_elem_of_In ].
  - intros H. rewrite forallb_forall in H. rewrite rmap_ok; [ done | ].
    rewrite Forall_forall in IH |- *. intros [s x] Hx. simpl.
    assert (E : resolve store x = Ok x).
    { apply (IH (s, x)); [ done | apply (H (s, x)); by apply list_elem_of_In ]. }
    by rewrite E.
Qed.

Lemma resolve_all_local store (l : list value) :
  forallb local l = true -> rmap (resolve store) l = Ok l.
Proof.
  intros H. rewrite forallb_forall in H. apply rmap_ok.
  rewrite Forall_forall. intros x Hx. apply resolve_local, H.
  by apply list_elem_of_In.
Qed.

Lemma resolve_kwargs_local store kw :
  closed_kwargs 0 kw = true -> resolve_kwargs store kw = Ok kw.
Proof.
  unfold closed_kwargs, resolve_kwargs. intros H. rewrite forallb_forall in H.
  apply rmap_ok. rewrite Forall_forall. intros [s x] Hx. simpl.
  rewrite (resolve_local store x); [ done | ]. apply (H (s, x)).
  by apply list_elem_of_In.
Qed.

(** ** The refcount table *)

Lemma outstanding_retain t t' m :
  outstanding (retain_tbl t m) t' =
  (outstanding m t' + if decide (t = t') then 1 else 0)%nat.
Proof.
  unfold outstanding, retain_tbl. destruct (decide (t = t')) as [ <- | Hne ].
  - rewrite lookup_insert_eq. destruct (m !! t); lia.
  - rewrite lookup_insert_ne by done. lia.
Qed.

Lemma outstanding_release t t' m :
  outstanding (release_tbl t m) t' =
  (outstanding m t' - if decide (t = t') then 1 else 0)%nat.
Proof.
  unfold outstanding, release_tbl. destruct (decide (t = t')) as [ <- | Hne ].
  - destruct (m !! t) as [ p | ] eqn:E.
    + destruct (decide (p = 1%positive)) as [ -> | Hp ].
      * rewrite lookup_delete_eq. simpl. lia.
      * assert (Hin : <[t := Pos.pred p]> m !! t = Some (Pos.pred p))
          by apply lookup_insert_eq.
        destruct p; try congruence; rewrite Hin; lia.
    + rewrite E. lia.
  - destruct (m !! t) as [ p | ] eqn:E.
    + destruct p; rewrite ?lookup_insert_ne, ?lookup_delete_ne by done; lia.
    + lia.
Qed.

Lemma outstanding_inj (m1 m2 : gmap token positive) :
  (forall t, outstanding m1 t = outstanding m2 t) -> m1 = m2.
Proof.
  intros H. apply map_eq. intros t. specialize (H t). unfold outstanding in H.
  destruct (m1 !! t) as [ p1 | ], (m2 !! t) as [ p2 | ]; try done.
  - f_equal. by apply Pos2Nat.inj.
  - lia.
  - lia.
Qed.

Lemma refs_retain_all md w :
  forall t, outstanding (refs (retain_all md w)) t =
            (outstanding (refs w) t + occurrences t md)%nat.
Proof.
  unfold occurrences.
  revert w. induction md as [ | t0 md IH ]; intros w t; simpl.
  - lia.
  - unfold retain_all in *. simpl. rewrite IH. simpl.
    rewrite outstanding_retain.
    destruct (decide (t0 = t)) as [ -> | Hne ].
    + rewrite Nat.eqb_refl. simpl. lia.
    + destruct (Nat.eqb_spec t t0); [ congruence | lia ].
Qed.

Lemma refs_release_all md w :
  forall t, outstanding (refs (release_all md w)) t =
            (outstanding (refs w) t - occurrences t md)%nat.
Proof.
  unfold occurrences.
  revert w. induction md as [ | t0 md IH ]; intros w t; simpl.
  - lia.
  - unfold release_all in *. simpl. rewrite IH. simpl.
    rewrite outstanding_release.
    destruct (decide (t0 = t)) as [ -> | Hne ].
    + rewrite Nat.eqb_refl. simpl. lia.
    + destruct (Nat.eqb_spec t t0); [ congruence | lia ].
Qed.

(** Releasing what was retained gives the table back. *)
Lemma release_all_retain_all md w w' :
  refs w' = refs (retain_all md w) ->
  refs (release_all md w') = refs w.
Proof.
  intros H. apply outstanding_inj. intros t.
  rewrite refs_release_all, H, refs_retain_all. lia.
Qed.

Lemma futures_retain_all md w : futures (retain_all md w) = futures w.
Proof.
  revert w. induction md as [ | t md IH ]; intros w; [ done | ].
  unfold retain_all in *. simpl. by rewrite IH.
Qed.

Lemma futures_release_all md w : futures (release_all md w) = futures w.
Proof.
  revert w. induction md as [ | t md IH ]; intros w; [ done | ].
  unfold release_all in *. simpl. by rewrite IH.
Qed.

Lemma attrs_retain_all md w : attrs (retain_all md w) = attrs w.
Proof.
  revert w. induction md as [ | t md IH ]; intros w; [ done | ].
  unfold retain_all in *. simpl. by rewrite IH.
Qed.

Lemma attrs_release_all md w : attrs (release_all md w) = attrs w.
Proof.
  revert w. induction md as [ | t md IH ]; intros w; [ done | ].
  unfold release_all in *. simpl. by rewrite IH.
Qed.

(** ** Runs *)

Lemma run_eta {A} (r : Run A) : mkRun (outcome r) (final r) (events r) = r.
Proof. by destruct r. Qed.

Lemma prepend_nil {A} (r : Run A) : prepend [] r = r.
Proof. by destruct r. Qed.

Lemma prepend_prepend {A} l1 l2 (r : Run A) :
  prepend l1 (prepend l2 r) = prepend (l1 ++ l2) r.
Proof. unfold prepend. simpl. by rewrite app_assoc. Qed.

Lemma bind_ok {A B} (m : M A) (f : A -> M B) w a w1 ev :
  m w = mkRun (Ok a) w1 ev -> bind m f w = prepend ev (f a w1).
Proof. intros H. unfold bind. by rewrite H. Qed.

Lemma bind_raise {A B} (m : M A) (f : A -> M B) w e w1 ev :
  m w = mkRun (Raise e) w1 ev -> bind m f w = mkRun (Raise e) w1 ev.
Proof. intros H. unfold bind. by rewrite H. Qed.

Lemma bind_ret_r {A} (m : M A) w : bind m ret w = m w.
Proof.
  unfold bind. destruct (m w) as [ [ a | e ] w1 ev ]; simpl.
  - by rewrite app_nil_r.
  - done.
Qed.

(** One step through a [bind] whose first computation has a known run. *)
Tactic Notation "step" uconstr(H) :=
  first [ rewrite (bind_ok _ _ _ _ _ _ H)
        | rewrite (bind_raise _ _ _ _ _ _ H) ].

(** ** Runs of the collaborators *)

Lemma retain_refs_run md w :
  _retain_refs md w = mkRun (Ok tt) (retain_all md w) (ERetain <$> md).
Proof.
  revert w. induction md as [ | t md IH ]; intros w; [ done | ].
  unfold _retain_refs in *. simpl. unfold bind at 1. simpl.
  rewrite IH. reflexivity.
Qed.

Lemma release_refs_run md w :
  _release_refs md w = mkRun (Ok tt) (release_all md w) (ERelease <$> md).
Proof.
  revert w. induction md as [ | t md IH ]; intros w; [ done | ].
  unfold _release_refs in *. simpl. unfold bind at 1. simpl.
  rewrite IH. reflexivity.
Qed.

Lemma retains_app t l1 l2 :
  retains t (l1 ++ l2) = (retains t l1 + retains t l2)%nat.
Proof. unfold retains. by rewrite List.filter_app, length_app. Qed.

Lemma releases_app t l1 l2 :
  releases t (l1 ++ l2) = (releases t l1 + releases t l2)%nat.
Proof. unfold releases. by rewrite List.filter_app, length_app. Qed.

Lemma retains_retain_events t md :
  retains t (ERetain <$> md) = occurrences t md.
Proof.
  unfold retains, occurrences. induction md as [ | t0 md IH ]; csimpl; [ done | ].
  destruct (Nat.eqb t t0); simpl; by rewrite IH.
Qed.

Lemma releases_release_events t md :
  releases t (ERelease <$> md) = occurrences t md.
Proof.
  unfold releases, occurrences. induction md as [ | t0 md IH ]; csimpl; [ done | ].
  destruct (Nat.eqb t t0); simpl; by rewrite IH.
Qed.

Lemma retains_release_events t md : retains t (ERelease <$> md) = 0%nat.
Proof. unfold retains. induction md as [ | t0 md IH ]; csimpl; done. Qed.

Lemma releases_retain_events t md : releases t (ERetain <$> md) = 0%nat.
Proof. unfold releases. induction md as [ | t0 md IH ]; csimpl; done. Qed.

Lemma remote_call_local store (f : pyfun) args kw :
  forallb local args = true -> closed_kwargs 0 kw = true ->
  remote_call store f args kw = f args kw.
Proof.
  intros Ha Hk. unfold remote_call.
  by rewrite resolve_all_local, resolve_kwargs_local.
Qed.

Lemma resolve_last store (o : result value) :
  resolve (store ++ [o]) (VFuture (length store)) = o.
Proof.
  simpl. rewrite lookup_app_r by lia. by rewrite Nat.sub_diag.
Qed.

(** ** map *)

(** C1. [map.update] makes one call to the collaborators before it emits,
    the submission of the bound function with [x] and the fixed extra
    arguments; the function is not called locally, so the routine emits
    whatever the function does on these arguments.  The value handed to the
    emission primitive is the handle the client returned, and that handle
    resolves to the outcome of the function on the arguments (handles among
    them standing for their values): for local arguments, to the very value
    of the direct local application. *)
Theorem map_update_submits_and_emits_handle
    (self : map_node) (x : value) (md : metadata) (w : World) :
  let k := length (futures w) in
  let f := map_func self in
  let args := x :: map_args self in
  let kw := map_kwargs self in
  let w1 := set_futures (futures w ++ [remote_call (futures w) f args kw]) w in
  map_update self x md w
    = then_emit [ESubmit f args kw k] (map_downstreams self) (VFuture k) md w1
  /\ resolve (futures w1) (VFuture k) = remote_call (futures w) f args kw
  /\ (forallb local args = true -> closed_kwargs 0 kw = true ->
      resolve (futures w1) (VFuture k) = f args kw).
Proof.
  intros k f args kw w1. split; [ | split ].
  - reflexivity.
  - apply resolve_last.
  - intros Ha Hk. unfold w1, k. cbn [futures set_futures].
    rewrite resolve_last. by apply remote_call_local.
Qed.

Lemma map_update_submits_and_emits_handle_witness :
  forallb local [VInt 3] = true /\ closed_kwargs 0 [] = true /\
  resolve (futures (final (map_update (map_init double [] [] [sink identity])
                                      (VInt 3) [] empty_world)))
          (VFuture 0) = Ok (VInt 6).
Proof.
  split; [ reflexivity | split; [ reflexivity | ] ].
  exact (proj2 (proj2 (map_update_submits_and_emits_handle
                         (map_init double [] [] [sink identity])
                         (VInt 3) [] empty_world))
               eq_refl eq_refl).
Defined.

(** [starmap.update] does the same with [apply]: the handle resolves to the
    function applied to the unpacked item. *)
Lemma starmap_update_submits_and_emits_handle
    (self : starmap_node) (x : value) (md : metadata) (w : World) :
  let k := length (futures w) in
  let f := apply (starmap_func self) in
  let args := [x; VDict (starmap_kwargs self)] in
  let w1 := set_futures (futures w ++ [remote_call (futures w) f args []]) w in
  starmap_update self x md w
    = then_emit [ESubmit f args [] k] (starmap_downstreams self) (VFuture k) md w1
  /\ resolve (futures w1) (VFuture k) = remote_call (futures w) f args [].
Proof.
  intros k f args w1. split.
  - reflexivity.
  - apply resolve_last.
Qed.

Example map_doubles :
  let node := map_init double [] [] [] in
  let r := feed (map_update node) [] [VInt 1; VInt 2; VInt 3] empty_world in
  outcome (client_gather (VList [VFuture 0; VFuture 1; VFuture 2]) (final r))
  = Ok (VList [VInt 2; VInt 4; VInt 6]).
Proof. reflexivity. Qed.

Example starmap_adds :
  let node := starmap_init add [] [] in
  let r := starmap_update node (VTuple [VInt 1; VInt 2]) [] empty_world in
  outcome (client_gather (VFuture 0) (final r)) = Ok (VInt 3).
Proof. reflexivity. Qed.

(** A function that fails does not make [map.update] fail: the failure is
    in the store, behind the handle. *)
Example map_update_of_failing_function :
  let node := map_init (failing (RemoteError "boom")) [] [] [sink identity] in
  let r := map_update node (VInt 1) [] empty_world in
  outcome r = Ok (VList [VFuture 0])
  /\ futures (final r) = [Raise (RemoteError "boom")].
Proof. split; reflexivity. Qed.

(** ** filter *)

Lemma emit_events ds v md w :
  exists rest, events (_emit ds v md w) = EEmit v md :: rest.
Proof.
  unfold _emit, bind. simpl.
  destruct (outcome (mapM (fun d => d v md) ds w)); simpl; eauto.
Qed.

(** The run of [filter.update], path by path. *)
Lemma filter_update_run (self : filter_node) x md w :
  let k := length (futures w) in
  let w1 := set_futures (futures w ++ [verdict self x w]) (retain_all md w) in
  let own := (ERetain <$> md)
             ++ [ESubmit (filter_predicate self) (x :: filter_args self)
                         (filter_kwargs self) k;
                 EAwait (VFuture k)] in
  filter_update self x md w =
  match verdict self x w with
  | Ok v =>
      if truthy v
      then then_emit_finally own (filter_downstreams self) x md w1
      else mkRun (Ok VNone) (release_all md w1) (own ++ (ERelease <$> md))
  | Raise e => mkRun (Raise e) (release_all md w1) (own ++ (ERelease <$> md))
  end.
Proof.
  intros k w1 own.
  assert (Hres : resolve (futures w1) (VFuture k) = verdict self x w).
  { unfold w1, k. cbn [futures set_futures]. apply resolve_last. }
  assert (Hsubmit :
    client_submit (filter_predicate self) (x :: filter_args self)
                  (filter_kwargs self) (retain_all md w)
    = mkRun (Ok (VFuture k)) w1
            [ESubmit (filter_predicate self) (x :: filter_args self)
                     (filter_kwargs self) k]).
  { unfold client_submit, w1, k, verdict. by rewrite futures_retain_all. }
  assert (Hawait :
    await_future (VFuture k) w1 = mkRun (verdict self x w) w1 [EAwait (VFuture k)]).
  { unfold await_future. by rewrite Hres. }
  unfold filter_update, try_finally. rewrite release_refs_run.
  cbn [outcome final events].
  step (retain_refs_run md w).
  step Hsubmit.
  destruct (verdict self x w) as [ v | e ].
  - step Hawait.
    destruct (truthy v).
    + rewrite bind_ret_r. unfold then_emit_finally, prepend, own.
      cbn [outcome final events]. rewrite <- !app_assoc. reflexivity.
    + unfold prepend, ret, own. cbn [outcome final events].
      rewrite <- !app_assoc. reflexivity.
  - step Hawait.
    unfold prepend, own. cbn [outcome final events].
    rewrite <- !app_assoc. reflexivity.
Qed.

Lemma no_emit_app l1 l2 : no_emit (l1 ++ l2) = no_emit l1 && no_emit l2.
Proof. apply forallb_app. Qed.

Lemma no_emit_retain_events md : no_emit (ERetain <$> md) = true.
Proof. induction md as [ | t md IH ]; csimpl; done. Qed.

Lemma no_emit_release_events md : no_emit (ERelease <$> md) = true.
Proof. induction md as [ | t md IH ]; csimpl; done. Qed.

Create Rewrite HintDb events.
#[local] Hint Rewrite no_emit_app no_emit_retain_events no_emit_release_events
  : events.

Lemma no_emit_not_in evs v md : no_emit evs = true -> ~ In (EEmit v md) evs.
Proof.
  unfold no_emit. rewrite forallb_forall. intros H Hin.
  by specialize (H _ Hin).
Qed.

(** C2. [filter.update] hands [x] to the emission primitive if and only if
    the predicate's remote result is true; what it hands over is the item
    [x] itself, and none of its own calls before or after is an emission
    (the predicate's handle goes nowhere).  When the result is false, or the
    predicate failed, the run holds no emission at all, and the routine
    returns [None] or raises the predicate's exception. *)
Theorem filter_update_forwards_item_iff_true
    (self : filter_node) (x : value) (md : metadata) (w : World) :
  let k := length (futures w) in
  let w1 := set_futures (futures w ++ [verdict self x w]) (retain_all md w) in
  let own := (ERetain <$> md)
             ++ [ESubmit (filter_predicate self) (x :: filter_args self)
                         (filter_kwargs self) k;
                 EAwait (VFuture k)] in
  let r := filter_update self x md w in
  (In (EEmit x md) (events r) <-> passes self x w = true)
  /\ r = (if passes self x w
          then then_emit_finally own (filter_downstreams self) x md w1
          else mkRun (match verdict self x w with
                      | Ok _ => Ok VNone
                      | Raise e => Raise e
                      end)
                     (release_all md w1) (own ++ (ERelease <$> md)))
  /\ no_emit own = true
  /\ no_emit (ERelease <$> md) = true
  /\ (forall b, verdict self x w = Ok (VBool b) -> passes self x w = b).
Proof.
  intros k w1 own r.
  assert (Hown : no_emit own = true).
  { unfold own. rewrite no_emit_app, no_emit_retain_events. reflexivity. }
  assert (Hrun : r = (if passes self x w
          then then_emit_finally own (filter_downstreams self) x md w1
          else mkRun (match verdict self x w with
                      | Ok _ => Ok VNone
                      | Raise e => Raise e
                      end)
                     (release_all md w1) (own ++ (ERelease <$> md)))).
  { unfold r. rewrite filter_update_run. fold k w1 own. unfold passes.
    destruct (verdict self x w) as [ v | e ]; [ destruct (truthy v) | ]; done. }
  split; [ | split; [ exact Hrun | split; [ exact Hown | split ] ] ].
  - rewrite Hrun. destruct (passes self x w).
    + split; [ done | intros _ ].
      unfold then_emit_finally. cbn [events].
      destruct (emit_events (filter_downstreams self) x md w1) as [ rest -> ].
      apply in_or_app. right. left. reflexivity.
    + split; [ | done ]. cbn [events]. intros Hin. exfalso.
      revert Hin. apply no_emit_not_in.
      by rewrite no_emit_app, Hown, no_emit_release_events.
  - apply no_emit_release_events.
  - intros b Hb. unfold passes. by rewrite Hb.
Qed.

Lemma filter_update_forwards_item_iff_true_witness :
  let node := mkFilter is_positive [] [] VNone [sink identity] in
  passes node (VInt 3) empty_world = true
  /\ In (EEmit (VInt 3) [7%nat])
        (events (filter_update node (VInt 3) [7%nat] empty_world)).
Proof.
  intros node. split; [ reflexivity | ].
  apply (proj1 (filter_update_forwards_item_iff_true
                  node (VInt 3) [7%nat] empty_world)).
  reflexivity.
Defined.

Example filter_drops_nonpositive :
  let node := mkFilter is_positive [] [] VNone [sink identity] in
  let r := filter_update node (VInt (-3)) [7%nat] empty_world in
  outcome r = Ok VNone /\ no_emit (events r) = true.
Proof. split; reflexivity. Qed.

(** C3. On every path of [filter.update] (predicate true, whatever the
    emission does; predicate false; predicate failed or cancelled) the
    routine's own calls are: the retains of the item's tokens, then the
    submission and the wait for the predicate, and, after the emission if
    there is one, the releases of the same tokens, once each.  While the
    predicate is outstanding every token has its retains outstanding, and
    the routine ends in the world in which the tokens have been released:
    if the emission leaves the table as it found it, so does the routine. *)
Theorem filter_update_releases_on_every_path
    (self : filter_node) (x : value) (md : metadata) (w : World) :
  let k := length (futures w) in
  let w1 := set_futures (futures w ++ [verdict self x w]) (retain_all md w) in
  let e := _emit (filter_downstreams self) x md w1 in
  let mid := if passes self x w then events e else [] in
  let wbody := if passes self x w then final e else w1 in
  let r := filter_update self x md w in
  events r = (ERetain <$> md)
             ++ [ESubmit (filter_predicate self) (x :: filter_args self)
                         (filter_kwargs self) k;
                 EAwait (VFuture k)]
             ++ mid ++ (ERelease <$> md)
  /\ final r = release_all md wbody
  /\ (forall t, retains t (events r) = (occurrences t md + retains t mid)%nat
             /\ releases t (events r) = (occurrences t md + releases t mid)%nat)
  /\ (forall t, outstanding (refs w1) t
                = (outstanding (refs w) t + occurrences t md)%nat)
  /\ (refs wbody = refs w1 -> refs (final r) = refs w).
Proof.
  intros k w1 e mid wbody r.
  assert (Hev : events r = (ERetain <$> md)
             ++ [ESubmit (filter_predicate self) (x :: filter_args self)
                         (filter_kwargs self) k;
                 EAwait (VFuture k)]
             ++ mid ++ (ERelease <$> md)).
  { unfold r, mid. rewrite filter_update_run. fold k w1. unfold passes.
    destruct (verdict self x w) as [ v | ex ]; [ destruct (truthy v) | ];
      unfold then_emit_finally; cbn [events]; fold e;
      rewrite <- ?app_assoc; reflexivity. }
  assert (Hfin : final r = release_all md wbody).
  { unfold r, wbody. rewrite filter_update_run. fold k w1. unfold passes.
    destruct (verdict self x w) as [ v | ex ]; [ destruct (truthy v) | ];
      reflexivity. }
  split; [ exact Hev | split; [ exact Hfin | split; [ | split ] ] ].
  - intros t. rewrite Hev.
    rewrite !retains_app, !releases_app.
    rewrite retains_retain_events, releases_release_events.
    rewrite retains_release_events, releases_retain_events.
    split; simpl; lia.
  - intros t. unfold w1. cbn [refs set_futures]. apply refs_retain_all.
  - intros Hbody. rewrite Hfin. apply release_all_retain_all.
    rewrite Hbody. reflexivity.
Qed.

(** A cancelled predicate: the exception leaves the routine through the
    release. *)
Example filter_releases_when_cancelled :
  let node := mkFilter (failing CancelledError) [] [] VNone [sink identity] in
  let r := filter_update node (VInt 3) [7%nat] empty_world in
  outcome r = Raise CancelledError
  /\ events r = [ERetain 7; ESubmit (failing CancelledError) [VInt 3] [] 0;
                 EAwait (VFuture 0); ERelease 7]
  /\ refs (final r) = refs empty_world.
Proof. repeat split. Qed.

(** A consumer that fails: the exception leaves the routine through the
    release. *)
Example filter_releases_when_emission_fails :
  let node := mkFilter is_positive [] [] VNone [sink (failing TypeError)] in
  let r := filter_update node (VInt 3) [7%nat] empty_world in
  outcome r = Raise TypeError
  /\ retains 7 (events r) = 1%nat /\ releases 7 (events r) = 1%nat
  /\ refs (final r) = refs empty_world.
Proof. repeat split. Qed.

Lemma filter_update_releases_on_every_path_witness :
  let node := mkFilter is_positive [] [] VNone [sink identity] in
  let w1 := set_futures [Ok (VBool true)] (retain_all [7%nat] empty_world) in
  refs (final (_emit [sink identity] (VInt 3) [7%nat] w1)) = refs w1
  /\ refs (final (filter_update node (VInt 3) [7%nat] empty_world))
     = refs empty_world.
Proof.
  intros node w1. split; [ reflexivity | ].
  apply (proj2 (proj2 (proj2 (proj2 (filter_update_releases_on_every_path
                  node (VInt 3) [7%nat] empty_world))))).
  reflexivity.
Defined.

(** ** accumulate *)

Lemma get_state_run (self : accumulate_node) w :
  get_state self w = mkRun (Ok (attrs w !! acc_self self)) w [].
Proof. reflexivity. Qed.

Lemma set_state_run (self : accumulate_node) v w :
  set_state self (Some v) w
  = mkRun (Ok tt) (set_attrs (<[acc_self self := v]> (attrs w)) w) [].
Proof. reflexivity. Qed.

Lemma submit_run f args kw w :
  client_submit f args kw w
  = mkRun (Ok (VFuture (length (futures w))))
          (set_futures (futures w ++ [remote_call (futures w) f args kw]) w)
          [ESubmit f args kw (length (futures w))].
Proof. reflexivity. Qed.

Lemma emit_with_state (self : accumulate_node) state output md w :
  attrs w !! acc_self self = Some state ->
  (if truthy (acc_with_state self)
   then bind (get_state self) (fun st =>
          _emit (acc_downstreams self) (VTuple [default VNone st; output]) md)
   else _emit (acc_downstreams self) output md) w
  = _emit (acc_downstreams self) (fold_payload self state output) md w.
Proof.
  intros Hst. unfold fold_payload. destruct (truthy (acc_with_state self)).
  - step (get_state_run self w). rewrite Hst.
    by rewrite prepend_nil.
  - reflexivity.
Qed.

(** Without start value the constructor leaves the state at the sentinel;
    with one, the state is the start value. *)
Lemma accumulate_init_state self f start rs kw ds w :
  attrs (final (accumulate_init self f start rs kw ds w)) !! self = start.
Proof.
  unfold accumulate_init, set_state, modify, bind. cbn.
  destruct start; [ apply lookup_insert_eq | apply lookup_delete_eq ].
Qed.

(** The first item of a fold without start value. *)
Lemma accumulate_update_first (self : accumulate_node) x md w :
  attrs w !! acc_self self = None ->
  accumulate_update self x md w
  = then_emit [] (acc_downstreams self) (fold_payload self x x) md
              (set_attrs (<[acc_self self := x]> (attrs w)) w).
Proof.
  intros Hst. unfold accumulate_update.
  step (get_state_run self w). rewrite Hst, prepend_nil.
  step (set_state_run self x w). rewrite prepend_nil.
  rewrite emit_with_state with (state := x).
  - unfold then_emit. by rewrite prepend_nil.
  - cbn [attrs set_attrs]. apply lookup_insert_eq.
Qed.

Lemma remote_getitem store k i :
  remote_call store getitem [VFuture k; VInt i] []
  = item_of i (resolve store (VFuture k)).
Proof.
  unfold remote_call, item_of. cbn [rmap].
  destruct (resolve store (VFuture k)) as [ p | e ]; reflexivity.
Qed.

Lemma resolve_second (store : list (result value)) a b c :
  resolve (store ++ [a; b; c]) (VFuture (S (length store))) = b.
Proof.
  cbn [resolve]. rewrite lookup_app_r by lia.
  by replace (S (length store) - length store)%nat with 1%nat by lia.
Qed.

Lemma resolve_third (store : list (result value)) a b c :
  resolve (store ++ [a; b; c]) (VFuture (S (S (length store)))) = c.
Proof.
  cbn [resolve]. rewrite lookup_app_r by lia.
  by replace (S (S (length store)) - length store)%nat with 2%nat by lia.
Qed.

(** The run of [accumulate.update] on an item that finds a state, for a
    fold function that returns a [(state, output)] pair. *)
Lemma accumulate_update_pair_run
    (self : accumulate_node) (x : value) (md : metadata) (w : World)
    (S0 : value) :
  attrs w !! acc_self self = Some S0 ->
  acc_returns_state self = true ->
  let k := length (futures w) in
  let f := acc_func self in
  let kw := acc_kwargs self in
  let combined := remote_call (futures w) f [S0; x] kw in
  let store := futures w ++ [combined; item_of 0 combined; item_of 1 combined] in
  let w1 := set_attrs (<[acc_self self := VFuture (S k)]> (attrs w))
                      (set_futures store w) in
  accumulate_update self x md w
  = then_emit [ESubmit f [S0; x] kw k;
               ESubmit getitem [VFuture k; VInt 0] [] (S k);
               ESubmit getitem [VFuture k; VInt 1] [] (S (S k))]
              (acc_downstreams self)
              (fold_payload self (VFuture (S k)) (VFuture (S (S k)))) md w1.
Proof.
  intros Hst Hrs k f kw combined store w1.
  unfold accumulate_update.
  step (get_state_run self w). rewrite Hst, prepend_nil.
  step (submit_run _ _ _ w).
  rewrite Hrs.
  fold k f kw combined.
  set (wa := set_futures (futures w ++ [combined]) w).
  assert (Ha : length (futures wa) = S k).
  { unfold wa, k. cbn [futures set_futures]. rewrite length_app. simpl. lia. }
  assert (Hra : resolve (futures wa) (VFuture k) = combined).
  { unfold wa, k. cbn [futures set_futures]. apply resolve_last. }
  set (wb := set_futures (futures wa ++ [item_of 0 combined]) wa).
  assert (Hb : length (futures wb) = S (S k)).
  { unfold wb. cbn [futures set_futures]. rewrite length_app, Ha. simpl. lia. }
  assert (Hrb : resolve (futures wb) (VFuture k) = combined).
  { unfold wb. cbn [futures set_futures]. rewrite resolve_app; [ done | ].
    rewrite Ha. cbn [closed]. apply Nat.ltb_lt. lia. }
  set (wc := set_futures (futures wb ++ [item_of 1 combined]) wb).
  assert (Hinner :
    bind (client_submit getitem [VFuture k; VInt 0] []) (fun state =>
      bind (client_submit getitem [VFuture k; VInt 1] []) (fun result =>
        ret (state, result))) wa
    = mkRun (Ok (VFuture (S k), VFuture (S (S k)))) wc
            [ESubmit getitem [VFuture k; VInt 0] [] (S k);
             ESubmit getitem [VFuture k; VInt 1] [] (S (S k))]).
  { step (submit_run getitem [VFuture k; VInt 0] [] wa).
    rewrite Ha, remote_getitem, Hra. fold wb.
    step (submit_run getitem [VFuture k; VInt 1] [] wb).
    rewrite Hb, remote_getitem, Hrb. fold wc. reflexivity. }
  step Hinner. cbn [fst snd].
  step (set_state_run self (VFuture (S k)) wc).
  rewrite prepend_nil.
  assert (Hw1 : set_attrs (<[acc_self self := VFuture (S k)]> (attrs wc)) wc = w1).
  { unfold w1, wc, wb, wa, store. unfold set_attrs, set_futures. simpl.
    rewrite <- !app_assoc. reflexivity. }
  rewrite Hw1.
  rewrite emit_with_state with (state := VFuture (S k)).
  - unfold then_emit. rewrite !prepend_prepend. reflexivity.
  - unfold w1. cbn [attrs set_attrs]. apply lookup_insert_eq.
Qed.

(** The same for a fold function that returns the state alone. *)
Lemma accumulate_update_plain_run
    (self : accumulate_node) (x : value) (md : metadata) (w : World)
    (S0 : value) :
  attrs w !! acc_self self = Some S0 ->
  acc_returns_state self = false ->
  let k := length (futures w) in
  let f := acc_func self in
  let kw := acc_kwargs self in
  let combined := remote_call (futures w) f [S0; x] kw in
  let w1 := set_attrs (<[acc_self self := VFuture k]> (attrs w))
                      (set_futures (futures w ++ [combined]) w) in
  accumulate_update self x md w
  = then_emit [ESubmit f [S0; x] kw k] (acc_downstreams self)
              (fold_payload self (VFuture k) (VFuture k)) md w1.
Proof.
  intros Hst Hrs k f kw combined w1.
  unfold accumulate_update.
  step (get_state_run self w). rewrite Hst, prepend_nil.
  step (submit_run _ _ _ w).
  rewrite Hrs. fold k f kw combined.
  set (wa := set_futures (futures w ++ [combined]) w).
  unfold ret at 1.
  rewrite (bind_ok _ _ _ (VFuture k, VFuture k) wa []) by reflexivity.
  rewrite prepend_nil. cbn [fst snd].
  step (set_state_run self (VFuture k) wa).
  rewrite prepend_nil.
  change (set_attrs (<[acc_self self := VFuture k]> (attrs wa)) wa) with w1.
  rewrite emit_with_state with (state := VFuture k).
  - reflexivity.
  - unfold w1. cbn [attrs set_attrs]. apply lookup_insert_eq.
Qed.

(** What the later steps of a fold need of [accumulate.update]: it emits a
    state handle and an output handle, both new, after submissions only. *)
Lemma accumulate_update_next
    (self : accumulate_node) (x : value) (md : metadata) (w : World)
    (S0 : value) :
  attrs w !! acc_self self = Some S0 ->
  let combined := remote_call (futures w) (acc_func self) [S0; x]
                              (acc_kwargs self) in
  exists own st out more,
    let w1 := set_attrs (<[acc_self self := st]> (attrs w))
                        (set_futures (futures w ++ more) w) in
    accumulate_update self x md w
    = then_emit own (acc_downstreams self) (fold_payload self st out) md w1
    /\ no_emit own = true
    /\ closed (length (futures w ++ more)) st = true
    /\ resolve (futures w ++ more) st
       = (if acc_returns_state self then item_of 0 combined else combined)
    /\ resolve (futures w ++ more) out
       = (if acc_returns_state self then item_of 1 combined else combined).
Proof.
  intros Hst combined. destruct (acc_returns_state self) eqn:Hrs.
  - eexists _, (VFuture (S (length (futures w)))),
            (VFuture (S (S (length (futures w))))),
            [combined; item_of 0 combined; item_of 1 combined].
    split; [ exact (accumulate_update_pair_run self x md w S0 Hst Hrs) | ].
    split; [ reflexivity | split; [ | split ] ].
    + cbn [closed]. apply Nat.ltb_lt. rewrite length_app. simpl. lia.
    + apply resolve_second.
    + apply resolve_third.
  - eexists _, (VFuture (length (futures w))), (VFuture (length (futures w))),
            [combined].
    split; [ exact (accumulate_update_plain_run self x md w S0 Hst Hrs) | ].
    split; [ reflexivity | split; [ | split ] ].
    + cbn [closed]. apply Nat.ltb_lt. rewrite length_app. simpl. lia.
    + apply resolve_last.
    + apply resolve_last.
Qed.

(** C5. With a state [S] in place (every item after the first, or an
    explicit start value), [accumulate.update] submits [(f, S, x)].  When
    the fold function is declared to return a [(state, output)] pair it
    then submits [getitem] on the combined handle with index 0, for the new
    state, and with index 1, for the output; otherwise the combined handle
    is both.  These submissions are all the routine does before it emits,
    and the emission starts in a world where [self.state] is already the
    new-state handle. *)
Theorem accumulate_update_sets_state_before_emit
    (self : accumulate_node) (x : value) (md : metadata) (w : World)
    (S0 : value) :
  attrs w !! acc_self self = Some S0 ->
  let k := length (futures w) in
  let f := acc_func self in
  let kw := acc_kwargs self in
  let combined := remote_call (futures w) f [S0; x] kw in
  if acc_returns_state self then
    let store := futures w ++ [combined; item_of 0 combined; item_of 1 combined] in
    let w1 := set_attrs (<[acc_self self := VFuture (S k)]> (attrs w))
                        (set_futures store w) in
    accumulate_update self x md w
    = then_emit [ESubmit f [S0; x] kw k;
                 ESubmit getitem [VFuture k; VInt 0] [] (S k);
                 ESubmit getitem [VFuture k; VInt 1] [] (S (S k))]
                (acc_downstreams self)
                (fold_payload self (VFuture (S k)) (VFuture (S (S k)))) md w1
    /\ attrs w1 !! acc_self self = Some (VFuture (S k))
    /\ resolve (futures w1) (VFuture (S k)) = item_of 0 combined
    /\ resolve (futures w1) (VFuture (S (S k))) = item_of 1 combined
  else
    let w1 := set_attrs (<[acc_self self := VFuture k]> (attrs w))
                        (set_futures (futures w ++ [combined]) w) in
    accumulate_update self x md w
    = then_emit [ESubmit f [S0; x] kw k] (acc_downstreams self)
                (fold_payload self (VFuture k) (VFuture k)) md w1
    /\ attrs w1 !! acc_self self = Some (VFuture k)
    /\ resolve (futures w1) (VFuture k) = combined.
Proof.
  intros Hst k f kw combined.
  destruct (acc_returns_state self) eqn:Hrs.
  - intros store w1. split; [ | split; [ | split ] ].
    + exact (accumulate_update_pair_run self x md w S0 Hst Hrs).
    + unfold w1. cbn [attrs set_attrs]. apply lookup_insert_eq.
    + unfold w1, store, k. cbn [futures set_futures set_attrs].
      apply resolve_second.
    + unfold w1, store, k. cbn [futures set_futures set_attrs].
      apply resolve_third.
  - intros w1. split; [ | split ].
    + exact (accumulate_update_plain_run self x md w S0 Hst Hrs).
    + unfold w1. cbn [attrs set_attrs]. apply lookup_insert_eq.
    + unfold w1, k. cbn [futures set_futures set_attrs]. apply resolve_last.
Qed.

Lemma accumulate_update_sets_state_before_emit_witness :
  let node := mkAccumulate 5 add false [] (VBool false) [sink identity] in
  let w := set_attrs (<[5%nat := VInt 1]> ∅) empty_world in
  let w1 := set_attrs (<[5%nat := VFuture 0]> (attrs w))
                      (set_futures [Ok (VInt 3)] w) in
  attrs w !! 5%nat = Some (VInt 1)
  /\ accumulate_update node (VInt 2) [] w
     = then_emit [ESubmit add [VInt 1; VInt 2] [] 0] [sink identity]
                 (VFuture 0) [] w1
  /\ attrs w1 !! 5%nat = Some (VFuture 0)
  /\ resolve (futures w1) (VFuture 0) = Ok (VInt 3).
Proof.
  intros node w w1. split; [ reflexivity | ].
  exact (accumulate_update_sets_state_before_emit
           node (VInt 2) [] w (VInt 1) eq_refl).
Defined.

Example accumulate_pair_function :
  let node := mkAccumulate 5 sum_and_product true [] (VBool true) [] in
  let w := set_attrs (<[5%nat := VInt 1]> ∅) empty_world in
  let r := accumulate_update node (VInt 2) [] w in
  events r = [ESubmit sum_and_product [VInt 1; VInt 2] [] 0;
              ESubmit getitem [VFuture 0; VInt 0] [] 1;
              ESubmit getitem [VFuture 0; VInt 1] [] 2;
              EEmit (VTuple [VFuture 1; VFuture 2]) []]
  /\ attrs (final r) !! 5%nat = Some (VFuture 1)
  /\ futures (final r) = [Ok (VTuple [VInt 3; VInt 2]); Ok (VInt 3); Ok (VInt 2)].
Proof. repeat split. Qed.

(** *** The fold over a sequence of items *)

Lemma final_bind {A B} (m : M A) (f : A -> M B) w :
  final (bind m f w)
  = match outcome (m w) with
    | Ok a => final (f a (final (m w)))
    | Raise _ => final (m w)
    end.
Proof. unfold bind. by destruct (outcome (m w)). Qed.

Lemma outcome_bind {A B} (m : M A) (f : A -> M B) w :
  outcome (bind m f w)
  = match outcome (m w) with
    | Ok a => outcome (f a (final (m w)))
    | Raise e => Raise e
    end.
Proof. unfold bind. by destruct (outcome (m w)). Qed.

Lemma mapM_quiet self (ds : list consumer) v md :
  Forall (quiet self) ds ->
  forall w,
    (exists more, futures (final (mapM (fun d => d v md) ds w)) = futures w ++ more)
    /\ attrs (final (mapM (fun d => d v md) ds w)) !! self = attrs w !! self.
Proof.
  induction 1 as [ | d ds Hd _ IH ]; intros w.
  - split; [ exists []; by rewrite app_nil_r | done ].
  - cbn [mapM]. rewrite final_bind.
    destruct (Hd v md w) as [ [ more1 Hf1 ] Ha1 ].
    destruct (outcome (d v md w)) as [ b | e ].
    + rewrite final_bind.
      destruct (IH (final (d v md w))) as [ [ more2 Hf2 ] Ha2 ].
      destruct (outcome (mapM (fun d0 => d0 v md) ds (final (d v md w))));
        cbn [ret final]; (split;
          [ exists (more1 ++ more2); by rewrite Hf2, Hf1, app_assoc
          | by rewrite Ha2, Ha1 ]).
    + split; [ by exists more1 | done ].
Qed.

Lemma emit_quiet self (ds : list consumer) v md :
  Forall (quiet self) ds ->
  forall w,
    (exists more, futures (final (_emit ds v md w)) = futures w ++ more)
    /\ attrs (final (_emit ds v md w)) !! self = attrs w !! self.
Proof.
  intros Hq w. unfold _emit.
  rewrite (bind_ok _ _ w tt w [EEmit v md]) by reflexivity.
  unfold prepend. cbn [final]. rewrite final_bind.
  destruct (mapM_quiet self ds v md Hq w) as [ Hf Ha ].
  destruct (outcome (mapM (fun d => d v md) ds w)); cbn [ret final]; done.
Qed.

Lemma remote_call_fold store more (f : pyfun) kw s x :
  closed (length store) x = true ->
  closed_kwargs (length store) kw = true ->
  remote_call (store ++ more) f [s; x] kw
  = fold_call store f kw (resolve (store ++ more) s) x.
Proof.
  intros Hx Hkw. unfold remote_call, fold_call. cbn [rmap].
  rewrite (resolve_app store more x Hx), (resolve_kwargs_app store more kw Hkw).
  destruct (resolve (store ++ more) s) as [ s' | e ]; [ | done ].
  destruct (resolve store x) as [ x' | e ]; done.
Qed.

Lemma closed_future_app (store more : list (result value)) k :
  (k < length store)%nat -> closed (length (store ++ more)) (VFuture k) = true.
Proof.
  intros Hk. cbn [closed]. apply Nat.ltb_lt. rewrite length_app. lia.
Qed.

Lemma feed_cons_ok (u : value -> metadata -> M value) md x xs w outs :
  outcome (feed u md (x :: xs) w) = Ok outs ->
  exists o os,
    outcome (u x md w) = Ok o
    /\ outcome (feed u md xs (final (u x md w))) = Ok os
    /\ final (feed u md (x :: xs) w) = final (feed u md xs (final (u x md w))).
Proof.
  unfold feed. cbn [mapM]. rewrite outcome_bind, final_bind.
  destruct (outcome (u x md w)) as [ o | e ]; [ | done ].
  rewrite outcome_bind, final_bind.
  destruct (outcome (mapM (fun x0 => u x0 md) xs (final (u x md w))))
    as [ os | e ]; [ | done ].
  intros _. by exists o, os.
Qed.

Section FoldOverItems.

(** A fold node whose consumers leave its state and the issued handles
    alone, and whose options hold only handles of the initial store. *)
Variable self : accumulate_node.
Variable md : metadata.
Variable store : list (result value).
Hypothesis quiet_downstreams :
  Forall (quiet (acc_self self)) (acc_downstreams self).
Hypothesis closed_options :
  closed_kwargs (length store) (acc_kwargs self) = true.

(** One step of the fold: the state after the item, as a handle issued by
    the client, stands for the next state of the running fold. *)
Lemma accumulate_step x w s :
  (exists more, futures w = store ++ more) ->
  attrs w !! acc_self self = Some s ->
  closed (length store) x = true ->
  let r := accumulate_update self x md w in
  exists st,
    attrs (final r) !! acc_self self = Some st
    /\ closed (length (futures (final r))) st = true
    /\ (exists more, futures (final r) = store ++ more)
    /\ resolve (futures (final r)) st
       = next_state store self (resolve (futures w) s) x.
Proof.
  intros [ more Hw ] Hst Hx r.
  destruct (accumulate_update_next self x md w s Hst)
    as (own & st & out & ext & Hrun & _ & Hcl & Hres & _).
  cbv zeta in Hrun.
  set (w1 := set_attrs (<[acc_self self := st]> (attrs w))
                       (set_futures (futures w ++ ext) w)) in *.
  destruct (emit_quiet (acc_self self) (acc_downstreams self)
              (fold_payload self st out) md quiet_downstreams w1)
    as [ [ more' Hf ] Ha ].
  assert (Hfin : final r = final (_emit (acc_downstreams self)
                                        (fold_payload self st out) md w1)).
  { unfold r. rewrite Hrun. reflexivity. }
  assert (Hw1 : futures w1 = futures w ++ ext) by reflexivity.
  exists st. rewrite Hfin, Hf, Ha, Hw1.
  split; [ | split; [ | split ] ].
  - unfold w1. cbn [attrs set_attrs]. apply lookup_insert_eq.
  - eapply closed_mono; [ | exact Hcl ]. rewrite !length_app. lia.
  - exists (more ++ ext ++ more'). rewrite Hw. by rewrite <- !app_assoc.
  - rewrite resolve_app by exact Hcl. rewrite Hres. unfold next_state.
    rewrite Hw, remote_call_fold by (exact Hx || exact closed_options).
    reflexivity.
Qed.

(** The state of the fold along a sequence of items. *)
Lemma feed_running_fold :
  forall xs w s outs,
    (exists more, futures w = store ++ more) ->
    attrs w !! acc_self self = Some s ->
    forallb (closed (length store)) xs = true ->
    outcome (feed (accumulate_update self) md xs w) = Ok outs ->
    exists st,
      attrs (final (feed (accumulate_update self) md xs w)) !! acc_self self
      = Some st
      /\ resolve (futures (final (feed (accumulate_update self) md xs w))) st
         = running_fold store self (resolve (futures w) s) xs.
Proof.
  induction xs as [ | x xs IH ]; intros w s outs Hw Hst Hxs Hok.
  - exists s. split; [ exact Hst | reflexivity ].
  - cbn [forallb] in Hxs. apply andb_prop in Hxs as [ Hx Hxs ].
    destruct (feed_cons_ok _ _ _ _ _ _ Hok) as (o & os & _ & Hrest & Hfin).
    destruct (accumulate_step x w s Hw Hst Hx)
      as (st & Hattr & _ & Hmore & Hres).
    destruct (IH _ st os Hmore Hattr Hxs Hrest) as (st' & Hattr' & Hres').
    exists st'. rewrite Hfin. split; [ exact Hattr' | ].
    rewrite Hres', Hres. reflexivity.
Qed.

End FoldOverItems.

Lemma sink_quiet self (f : pyfun) : quiet self (sink f).
Proof.
  intros v md w. unfold sink.
  rewrite (bind_ok _ _ w tt w [ECall f [v]]) by reflexivity.
  cbn [prepend lift final]. split; [ exists []; by rewrite app_nil_r | done ].
Qed.

(** C4, as the code has it.  For a fold without start value, inputs that
    are local values or handles already issued, and downstream consumers
    that leave the node's state and the issued handles alone:
    - the first item makes no call to the client: it becomes the state and
      is handed to the emission primitive unchanged, or as the pair
      [(x0, x0)] when the node emits [(state, value)] tuples;
    - the second item's output handle resolves to [f(x0, x1)], and the new
      state handle too, unless the fold function is declared to return a
      [(state, output)] pair: then the state resolves to item 0 and the
      output to item 1 of [f(x0, x1)]; the output handle is emitted alone,
      or paired with the state handle when the node emits tuples;
    - once all the items have been processed, the state resolves to the
      running left fold of the state function over the inputs. *)
Theorem accumulate_running_fold
    (self : accumulate_node) (md : metadata) (w : World)
    (x0 : value) (xs : list value) (outs : list value) :
  Forall (quiet (acc_self self)) (acc_downstreams self) ->
  attrs w !! acc_self self = None ->
  forallb (closed (length (futures w))) (x0 :: xs) = true ->
  closed_kwargs (length (futures w)) (acc_kwargs self) = true ->
  outcome (feed (accumulate_update self) md (x0 :: xs) w) = Ok outs ->
  let store := futures w in
  let w0 := set_attrs (<[acc_self self := x0]> (attrs w)) w in
  let r := feed (accumulate_update self) md (x0 :: xs) w in
  accumulate_update self x0 md w
  = then_emit [] (acc_downstreams self) (fold_payload self x0 x0) md w0
  /\ match xs with
     | [] => True
     | x1 :: _ =>
         exists own st out w1,
           accumulate_update self x1 md (final (accumulate_update self x0 md w))
           = then_emit own (acc_downstreams self) (fold_payload self st out) md w1
           /\ no_emit own = true
           /\ attrs w1 !! acc_self self = Some st
           /\ resolve (futures w1) st
              = next_state store self (resolve store x0) x1
           /\ resolve (futures w1) out
              = next_output store self (resolve store x0) x1
     end
  /\ exists st,
       attrs (final r) !! acc_self self = Some st
       /\ resolve (futures (final r)) st
          = running_fold store self (resolve store x0) xs.
Proof.
  intros Hq Hnone Hcl Hkw Hok store w0 r.
  cbn [forallb] in Hcl. apply andb_prop in Hcl as [ Hx0 Hxs ].
  pose proof (accumulate_update_first self x0 md w Hnone) as Hfirst.
  fold w0 in Hfirst.
  set (w' := final (accumulate_update self x0 md w)).
  destruct (emit_quiet (acc_self self) (acc_downstreams self)
              (fold_payload self x0 x0) md Hq w0) as [ [ more Hf ] Ha ].
  assert (Hw' : w' = final (_emit (acc_downstreams self)
                                  (fold_payload self x0 x0) md w0)).
  { unfold w'. rewrite Hfirst. reflexivity. }
  assert (Hfut : futures w' = store ++ more).
  { rewrite Hw', Hf. reflexivity. }
  assert (Hst : attrs w' !! acc_self self = Some x0).
  { rewrite Hw', Ha. unfold w0. cbn [attrs set_attrs]. apply lookup_insert_eq. }
  assert (Hres0 : resolve (futures w') x0 = resolve store x0).
  { rewrite Hfut. by apply resolve_app. }
  split; [ exact Hfirst | split ].
  - destruct xs as [ | x1 xs' ]; [ exact I | ].
    cbn [forallb] in Hxs. apply andb_prop in Hxs as [ Hx1 _ ].
    destruct (accumulate_update_next self x1 md w' x0 Hst)
      as (own & st & out & ext & Hrun & Hown & _ & Hrs & Hro).
    cbv zeta in Hrun.
    assert (Hcomb : remote_call (futures w') (acc_func self) [x0; x1]
                                (acc_kwargs self)
                    = fold_call store (acc_func self) (acc_kwargs self)
                                (resolve store x0) x1).
    { rewrite Hfut, remote_call_fold by done. by rewrite <- Hfut, Hres0. }
    rewrite Hcomb in Hrs, Hro.
    eexists own, st, out, _. split; [ exact Hrun | ].
    split; [ exact Hown | split; [ | split ] ].
    + cbn [attrs set_attrs]. apply lookup_insert_eq.
    + exact Hrs.
    + exact Hro.
  - destruct (feed_cons_ok _ _ _ _ _ _ Hok) as (o & os & _ & Hrest & Hfin).
    fold w' in Hrest, Hfin.
    destruct (feed_running_fold self md store Hq Hkw xs w' x0 os
                (ex_intro _ more Hfut) Hst Hxs Hrest) as (st & Hattr & Hres).
    exists st. unfold r. rewrite Hfin. split; [ exact Hattr | ].
    rewrite Hres, Hres0. reflexivity.
Qed.

Lemma accumulate_running_fold_witness :
  let node := mkAccumulate 5 add false [] (VBool false) [sink identity] in
  let items := [VInt 1; VInt 2; VInt 3] in
  let r := feed (accumulate_update node) [] items empty_world in
  Forall (quiet 5) [sink identity]
  /\ attrs empty_world !! 5%nat = None
  /\ forallb (closed 0) items = true
  /\ closed_kwargs 0 [] = true
  /\ outcome r = Ok [VList [VInt 1]; VList [VFuture 0]; VList [VFuture 1]]
  /\ exists st, attrs (final r) !! 5%nat = Some st
                /\ resolve (futures (final r)) st = Ok (VInt 6).
Proof.
  intros node items r.
  assert (Hq : Forall (quiet 5) [sink identity]).
  { constructor; [ apply sink_quiet | constructor ]. }
  split; [ exact Hq | ].
  split; [ reflexivity | split; [ reflexivity | split; [ reflexivity | ] ] ].
  split; [ reflexivity | ].
  exact (proj2 (proj2 (accumulate_running_fold node [] empty_world (VInt 1)
                         [VInt 2; VInt 3]
                         [VList [VInt 1]; VList [VFuture 0]; VList [VFuture 1]]
                         Hq eq_refl eq_refl eq_refl eq_refl))).
Defined.

(** The scenario of the specification: inputs [1, 2, 3] and [f(s, x) = s + x]
    give outputs that resolve to [1, 3, 6]. *)
Example accumulate_sums :
  let node := mkAccumulate 5 add false [] (VBool false) [] in
  let r := feed (accumulate_update node) [] [VInt 1; VInt 2; VInt 3] empty_world in
  emitted (events r) = [VInt 1; VFuture 0; VFuture 1]
  /\ outcome (client_gather (VList (emitted (events r))) (final r))
     = Ok (VList [VInt 1; VInt 3; VInt 6]).
Proof. split; reflexivity. Qed.

(** With a fold function declared to return a [(state, output)] pair, the
    second output does not resolve to [f(x0, x1)]: it resolves to item 1 of
    it, here [1 * 2], while [f(1, 2)] is the pair [(3, 2)]. *)
Lemma accumulate_second_output_counterexample :
  let items := [VInt 1; VInt 2] in
  let r := bind (accumulate_init 5 sum_and_product None true [] [])
                (fun node => feed (accumulate_update node) [] items)
                empty_world in
  attrs empty_world !! 5%nat = None
  /\ emitted (events r) = [VInt 1; VFuture 2]
  /\ resolve (futures (final r)) (VFuture 2) = Ok (VInt 2)
  /\ sum_and_product items [] = Ok (VTuple [VInt 3; VInt 2])
  /\ resolve (futures (final r)) (VFuture 2) <> sum_and_product items [].
Proof.
  intros items r.
  split; [ reflexivity | split; [ reflexivity | split; [ reflexivity | ] ] ].
  split; [ reflexivity | ].
  intros H. vm_compute in H. discriminate H.
Qed.

(** ** scatter and gather *)

Lemma emit_then_release (ds : list consumer) v md w own :
  prepend own
    (bind (_emit ds v md) (fun f => bind (_release_refs md) (fun _ => ret f)) w)
  = then_emit_release own ds v md w.
Proof.
  unfold then_emit_release, bind at 1.
  destruct (outcome (_emit ds v md w)) as [ r | ex ]; [ | reflexivity ].
  step (release_refs_run md _).
  unfold prepend, ret. cbn [outcome final events].
  by rewrite app_nil_r.
Qed.

(** The run of [scatter.update]. *)
Lemma scatter_update_run (self : scatter_node) x md w :
  let k := length (futures w) in
  let w1 := set_futures (futures w ++ [Ok x]) (retain_all md w) in
  scatter_update self x md w
  = then_emit_release ((ERetain <$> md) ++ [EScatter (VList [x])])
                      (scatter_downstreams self) (VFuture k) md w1.
Proof.
  intros k w1. unfold scatter_update.
  step (retain_refs_run md w).
  assert (Hsc : client_scatter (VList [x]) (retain_all md w)
                = mkRun (Ok (VList [VFuture k])) w1 [EScatter (VList [x])]).
  { unfold client_scatter, handles_from, w1, k. cbn [imap List.map].
    by rewrite futures_retain_all, Nat.add_0_r. }
  step Hsc.
  rewrite (bind_ok _ _ w1 (VFuture k) w1 []) by reflexivity.
  rewrite prepend_nil, prepend_prepend. apply emit_then_release.
Qed.

(** The run of [gather.update]. *)
Lemma gather_update_run (self : gather_node) x md w :
  let own := (ERetain <$> md) ++ [EGather x] in
  gather_update self x md w
  = match resolve (futures w) x with
    | Ok v => then_emit_release own (gather_downstreams self) v md
                                (retain_all md w)
    | Raise e => mkRun (Raise e) (retain_all md w) own
    end.
Proof.
  intros own. unfold gather_update.
  step (retain_refs_run md w).
  assert (Hg : client_gather x (retain_all md w)
               = mkRun (resolve (futures w) x) (retain_all md w) [EGather x]).
  { unfold client_gather. by rewrite futures_retain_all. }
  destruct (resolve (futures w) x) as [ v | e ].
  - step Hg. rewrite prepend_prepend.
    apply emit_then_release.
  - step Hg. reflexivity.
Qed.

(** C6. [scatter.update] hands the client the one-element list [[x]]: the
    store grows by exactly one entry, the whole of [x], whatever [x] is (a
    list, a mapping); the handle of that entry, taken out of the returned
    list, is what the routine emits. *)
Theorem scatter_update_scatters_one_item
    (self : scatter_node) (x : value) (md : metadata) (w : World) :
  let k := length (futures w) in
  let w1 := set_futures (futures w ++ [Ok x]) (retain_all md w) in
  scatter_update self x md w
  = then_emit_release ((ERetain <$> md) ++ [EScatter (VList [x])])
                      (scatter_downstreams self) (VFuture k) md w1
  /\ outcome (client_scatter (VList [x]) (retain_all md w))
     = Ok (VList [VFuture k])
  /\ futures (final (client_scatter (VList [x]) (retain_all md w)))
     = futures w ++ [Ok x]
  /\ py_getitem (VList [VFuture k]) (VInt 0) = Ok (VFuture k)
  /\ resolve (futures w1) (VFuture k) = Ok x.
Proof.
  intros k w1. split; [ apply scatter_update_run | ].
  unfold client_scatter, handles_from. cbn [outcome final imap List.map].
  rewrite futures_retain_all, Nat.add_0_r. fold k.
  split; [ reflexivity | split; [ reflexivity | split; [ reflexivity | ] ] ].
  unfold w1, k. cbn [futures set_futures]. apply resolve_last.
Qed.

(** Handed a list as it is, the client scatters its elements one by one;
    [scatter.update] scatters the list as one item. *)
Example scatter_of_a_list :
  let x := VList [VInt 1; VInt 2] in
  futures (final (client_scatter x empty_world)) = [Ok (VInt 1); Ok (VInt 2)]
  /\ futures (final (scatter_update (mkScatter []) x [] empty_world)) = [Ok x]
  /\ emitted (events (scatter_update (mkScatter []) x [] empty_world))
     = [VFuture 0].
Proof. repeat split. Qed.

Example scatter_of_a_mapping :
  let x := VDict [("a", VInt 1); ("b", VInt 2)] in
  futures (final (client_scatter x empty_world)) = [Ok (VInt 1); Ok (VInt 2)]
  /\ futures (final (scatter_update (mkScatter []) x [] empty_world)) = [Ok x].
Proof. repeat split. Qed.

(** C7. [gather.update] on the handle of a failed computation, for an item
    with the token 7: the token is retained, [client.gather] raises, and
    the routine is left without the release: the retain stays outstanding
    and the acknowledgment never fires.  The same holds for
    [scatter.update] when a downstream consumer raises.  [filter.update],
    with its [try ... finally], does release on the same failure. *)
Theorem gather_update_failure_keeps_retain :
  let w := set_futures [Raise (RemoteError "boom")] empty_world in
  let g := gather_update (mkGather [sink identity]) (VFuture 0) [7%nat] w in
  let s := scatter_update (mkScatter [sink (failing (RemoteError "boom"))])
                          (VInt 1) [7%nat] empty_world in
  let f := filter_update (mkFilter (failing (RemoteError "boom")) [] [] VNone
                                   [sink identity])
                         (VInt 1) [7%nat] empty_world in
  (outcome g = Raise (RemoteError "boom")
   /\ events g = [ERetain 7; EGather (VFuture 0)]
   /\ retains 7 (events g) = 1%nat /\ releases 7 (events g) = 0%nat
   /\ refs (final g) !! 7%nat = Some 1%positive
   /\ acked (final g) = [])
  /\ (outcome s = Raise (RemoteError "boom")
      /\ retains 7 (events s) = 1%nat /\ releases 7 (events s) = 0%nat
      /\ refs (final s) !! 7%nat = Some 1%positive
      /\ acked (final s) = [])
  /\ (outcome f = Raise (RemoteError "boom")
      /\ retains 7 (events f) = 1%nat /\ releases 7 (events f) = 1%nat
      /\ refs (final f) !! 7%nat = None
      /\ acked (final f) = [7%nat]).
Proof. repeat split. Qed.

(** On every failure of the remote resolution, [gather.update] ends with
    the retains and without the releases. *)
Lemma gather_update_failure (self : gather_node) x md w e :
  resolve (futures w) x = Raise e ->
  gather_update self x md w
  = mkRun (Raise e) (retain_all md w) ((ERetain <$> md) ++ [EGather x]).
Proof. intros H. rewrite gather_update_run. by rewrite H. Qed.

Lemma emit_single (d : consumer) v md w :
  _emit [d] v md w
  = prepend [EEmit v md]
      (match outcome (d v md w) with
       | Ok r => mkRun (Ok (VList [r])) (final (d v md w)) (events (d v md w))
       | Raise e => mkRun (Raise e) (final (d v md w)) (events (d v md w))
       end).
Proof.
  unfold _emit.
  rewrite (bind_ok _ _ w tt w [EEmit v md]) by reflexivity.
  f_equal. cbn [mapM]. unfold bind, ret.
  destruct (outcome (d v md w)); cbn [outcome final events]; [ | done ].
  by rewrite !app_nil_r.
Qed.

(** C8. The handle that [scatter.update] emits for [v] resolves to [v];
    [gather.update], given that handle, hands [v] to its own emission; and
    with the gather node as the consumer of the scatter node, the run of
    [scatter.update] on [v] is: retain, scatter, emit the handle, retain,
    gather, and the emission of [v] to the consumers of the gather node,
    followed, when it returns, by the two releases. *)
Theorem scatter_gather_round_trip
    (ds : list consumer) (v : value) (md : metadata) (w : World) :
  let k := length (futures w) in
  let w1 := set_futures (futures w ++ [Ok v]) (retain_all md w) in
  let w2 := retain_all md w1 in
  let own := (ERetain <$> md) ++ [EScatter (VList [v]); EEmit (VFuture k) md]
             ++ (ERetain <$> md) ++ [EGather (VFuture k)] in
  let e := _emit ds v md w2 in
  outcome (client_gather (VFuture k) w1) = Ok v
  /\ gather_update (mkGather ds) (VFuture k) md w1
     = then_emit_release ((ERetain <$> md) ++ [EGather (VFuture k)]) ds v md w2
  /\ scatter_update (mkScatter [gather_update (mkGather ds)]) v md w
     = match outcome e with
       | Ok r => mkRun (Ok (VList [r]))
                       (release_all md (release_all md (final e)))
                       (own ++ events e ++ (ERelease <$> md) ++ (ERelease <$> md))
       | Raise ex => mkRun (Raise ex) (final e) (own ++ events e)
       end.
Proof.
  intros k w1 w2 own e.
  assert (Hres : resolve (futures w1) (VFuture k) = Ok v).
  { unfold w1, k. cbn [futures set_futures]. apply resolve_last. }
  assert (Hg : gather_update (mkGather ds) (VFuture k) md w1
     = then_emit_release ((ERetain <$> md) ++ [EGather (VFuture k)]) ds v md w2).
  { rewrite gather_update_run, Hres. reflexivity. }
  split; [ exact Hres | split; [ exact Hg | ] ].
  rewrite scatter_update_run. fold k w1.
  unfold then_emit_release at 1. cbn [scatter_downstreams].
  rewrite emit_single, Hg. unfold then_emit_release. fold e.
  destruct (outcome e) as [ r | ex ]; cbn [outcome final events prepend];
    unfold own; rewrite <- ?app_assoc; cbn [app]; rewrite <- ?app_assoc;
    reflexivity.
Qed.

Example scatter_gather_of_a_list :
  let v := VList [VInt 1; VInt 2] in
  let pipeline := mkScatter [gather_update (mkGather [sink identity])] in
  let r := scatter_update pipeline v [7%nat] empty_world in
  emitted (events r) = [VFuture 0; v]
  /\ outcome r = Ok (VList [VList [v]])
  /\ refs (final r) = refs empty_world
  /\ acked (final r) = [7%nat].
Proof. repeat split. Qed.

(** ** The constructor of filter *)

(** C10. The name [_truthy] is not bound in the module; unless it is a
    builtin, which it is not in Python, [filter.__init__] with a [None]
    predicate raises [NameError] and builds no node. *)
Theorem filter_init_none_raises_name_error
    (builtins : list (string * pyobj)) (args : list value) (kw : kwargs)
    (downstreams : list consumer) :
  lookup_name builtins "_truthy" = None ->
  lookup_name module_globals "_truthy" = None
  /\ filter_init builtins None args kw downstreams = Raise (NameError "_truthy").
Proof.
  intros Hb. split; [ reflexivity | ].
  unfold filter_init, load_global.
  replace (lookup_name module_globals "_truthy") with (@None pyobj) by reflexivity.
  by rewrite Hb.
Qed.

Lemma filter_init_none_raises_name_error_witness :
  lookup_name python_builtins "_truthy" = None
  /\ filter_init python_builtins None [] [] [] = Raise (NameError "_truthy").
Proof.
  split; [ reflexivity | ].
  exact (proj2 (filter_init_none_raises_name_error python_builtins [] [] []
                  eq_refl)).
Defined.

(** With a predicate, the constructor keeps it, and takes [stream_name]
    out of the options. *)
Example filter_init_with_predicate :
  forall builtins,
  filter_init builtins (Some is_positive) []
              [("stream_name", VStr "positive"); ("strict", VBool true)] []
  = Ok (mkFilter is_positive [("strict", VBool true)] [] (VStr "positive") []).
Proof. reflexivity. Qed.

(** * Further properties of the module *)

(** ** Options *)

Lemma kwargs_has_del name kw : kwargs_has name (kwargs_del name kw) = false.
Proof.
  unfold kwargs_has, kwargs_del. induction kw as [ | kv kw IH ]; [ done | ].
  cbn [List.filter]. destruct (String.eqb (fst kv) name) eqn:E; cbn.
  - exact IH.
  - by rewrite E, IH.
Qed.

Lemma kwargs_get_del_ne name other d kw :
  other <> name ->
  kwargs_get other d (kwargs_del name kw) = kwargs_get other d kw.
Proof.
  intros Hne. unfold kwargs_get, kwargs_del.
  induction kw as [ | kv kw IH ]; [ done | ].
  cbn [List.filter List.find].
  destruct (String.eqb (fst kv) name) eqn:E; cbn [negb].
  - apply String.eqb_eq in E.
    destruct (String.eqb (fst kv) other) eqn:E'; [ | exact IH ].
    apply String.eqb_eq in E'. congruence.
  - cbn [List.find]. destruct (String.eqb (fst kv) other); [ done | exact IH ].
Qed.

Lemma kwargs_get_absent name d kw :
  kwargs_has name kw = false -> kwargs_get name d kw = d.
Proof.
  unfold kwargs_has, kwargs_get. induction kw as [ | kv kw IH ]; [ done | ].
  cbn. destruct (String.eqb (fst kv) name); [ done | exact IH ].
Qed.

Lemma closed_kwargs_del n name kw :
  closed_kwargs n kw = true -> closed_kwargs n (kwargs_del name kw) = true.
Proof.
  unfold closed_kwargs, kwargs_del. rewrite !forallb_forall.
  intros H kv Hin. apply filter_In in Hin as [ Hin _ ]. by apply H.
Qed.

Lemma kwargs_get_set_eq name v d kw :
  kwargs_get name d (kwargs_set name v kw) = v.
Proof.
  unfold kwargs_get. induction kw as [ | kv kw IH ]; cbn.
  - by rewrite String.eqb_refl.
  - destruct (String.eqb (fst kv) name) eqn:E; cbn; by rewrite E.
Qed.

Lemma kwargs_get_set_ne name other v d kw :
  other <> name ->
  kwargs_get other d (kwargs_set name v kw) = kwargs_get other d kw.
Proof.
  intros Hne. unfold kwargs_get. induction kw as [ | kv kw IH ]; cbn.
  - destruct (String.eqb name other) eqn:E; [ | done ].
    apply String.eqb_eq in E. congruence.
  - destruct (String.eqb (fst kv) name) eqn:E; cbn.
    + apply String.eqb_eq in E.
      destruct (String.eqb (fst kv) other) eqn:E'; [ | done ].
      apply String.eqb_eq in E'. congruence.
    + destruct (String.eqb (fst kv) other); [ done | exact IH ].
Qed.

Lemma kwargs_set_length name v kw :
  length (kwargs_set name v kw)
  = if kwargs_has name kw then length kw else S (length kw).
Proof.
  unfold kwargs_has. induction kw as [ | kv kw IH ]; cbn; [ done | ].
  destruct (String.eqb (fst kv) name); cbn; [ done | ].
  rewrite IH. by destruct (existsb _ kw).
Qed.

(** X1. Whatever options the caller gives, [ensure_io_loop=False]
    included, the options [DaskStream.__init__] hands on have
    [ensure_io_loop] set to [True]; every other option is handed on as
    given, and no option is dropped or duplicated. *)
Theorem DaskStream_init_forces_io_loop (kw : kwargs) :
  (forall d, kwargs_get "ensure_io_loop" d (DaskStream_init kw) = VBool true)
  /\ (forall name d, name <> "ensure_io_loop" ->
        kwargs_get name d (DaskStream_init kw) = kwargs_get name d kw)
  /\ length (DaskStream_init kw)
     = (if kwargs_has "ensure_io_loop" kw then length kw else S (length kw)).
Proof.
  unfold DaskStream_init. split; [ | split ].
  - intros d. apply kwargs_get_set_eq.
  - intros name d Hne. by apply kwargs_get_set_ne.
  - apply kwargs_set_length.
Qed.

Lemma DaskStream_init_forces_io_loop_witness :
  let kw := [("stream_name", VStr "s"); ("ensure_io_loop", VBool false)] in
  "stream_name" <> "ensure_io_loop"
  /\ kwargs_get "stream_name" VNone (DaskStream_init kw) = VStr "s".
Proof.
  intros kw. assert (Hne : "stream_name" <> "ensure_io_loop") by discriminate.
  split; [ exact Hne | ].
  exact (proj1 (proj2 (DaskStream_init_forces_io_loop kw))
               "stream_name" VNone Hne).
Defined.

(** X2. A filter built with a predicate keeps it, and takes [stream_name]
    out of the options: the predicate is submitted with the item, the fixed
    arguments and the other options, each as given, and never receives
    [stream_name]. *)
Theorem filter_keeps_stream_name_from_predicate
    (builtins : list (string * pyobj)) (p : pyfun) (args : list value)
    (kw : kwargs) (ds : list consumer) (x : value) (md : metadata) (w : World) :
  let kw' := kwargs_del "stream_name" kw in
  let node := mkFilter p kw' args (kwargs_get "stream_name" VNone kw) ds in
  filter_init builtins (Some p) args kw ds = Ok node
  /\ kwargs_has "stream_name" kw' = false
  /\ (forall name d, name <> "stream_name" ->
        kwargs_get name d kw' = kwargs_get name d kw)
  /\ (exists rest,
        events (filter_update node x md w)
        = (ERetain <$> md)
          ++ ESubmit p (x :: args) kw' (length (futures w)) :: rest)
  /\ verdict node x w = remote_call (futures w) p (x :: args) kw'.
Proof.
  intros kw' node. split; [ reflexivity | ].
  split; [ apply kwargs_has_del | ].
  split; [ intros name d Hne; by apply kwargs_get_del_ne | ].
  split; [ | reflexivity ].
  rewrite filter_update_run. cbn [filter_predicate filter_args filter_kwargs].
  destruct (verdict node x w) as [ v | e ]; [ destruct (truthy v) | ];
    unfold then_emit_finally; cbn [events]; rewrite <- ?app_assoc;
    eexists; reflexivity.
Qed.

Lemma filter_keeps_stream_name_from_predicate_witness :
  let kw := [("stream_name", VStr "positive"); ("strict", VBool true)] in
  "strict" <> "stream_name"
  /\ kwargs_get "strict" VNone (kwargs_del "stream_name" kw) = VBool true.
Proof.
  intros kw. assert (Hne : "strict" <> "stream_name") by discriminate.
  split; [ exact Hne | ].
  exact (proj1 (proj2 (proj2 (filter_keeps_stream_name_from_predicate
                                [] is_positive [] kw [] VNone [] empty_world)))
               "strict" VNone Hne).
Defined.

(** X3. A fold node takes [with_state] out of its options, with [False] as
    the default: the fold function is submitted with the state, the item
    and the other options, each as given, and never receives [with_state];
    the state set by the constructor is the start value. *)
Theorem accumulate_keeps_with_state_from_function
    (self : node_id) (f : pyfun) (start : value) (rs : bool) (kw : kwargs)
    (ds : list consumer) (x : value) (md : metadata) (w : World) :
  let kw' := kwargs_del "with_state" kw in
  let node := mkAccumulate self f rs kw'
                (kwargs_get "with_state" (VBool false) kw) ds in
  let built := accumulate_init self f (Some start) rs kw ds w in
  outcome built = Ok node
  /\ attrs (final built) !! self = Some start
  /\ kwargs_has "with_state" kw' = false
  /\ (forall name d, name <> "with_state" ->
        kwargs_get name d kw' = kwargs_get name d kw)
  /\ (kwargs_has "with_state" kw = false -> acc_with_state node = VBool false)
  /\ (exists rest,
        events (accumulate_update node x md (final built))
        = ESubmit f [start; x] kw' (length (futures w)) :: rest).
Proof.
  intros kw' node built.
  assert (Hst : attrs (final built) !! acc_self node = Some start).
  { apply accumulate_init_state. }
  split; [ reflexivity | split; [ exact Hst | ] ].
  split; [ apply kwargs_has_del | ].
  split; [ intros name d Hne; by apply kwargs_get_del_ne | ].
  split; [ intros Habs; by apply kwargs_get_absent | ].
  destruct rs.
  - rewrite (accumulate_update_pair_run node x md (final built) start Hst eq_refl).
    unfold then_emit, prepend. cbn [events app]. eexists. reflexivity.
  - rewrite (accumulate_update_plain_run node x md (final built) start Hst eq_refl).
    unfold then_emit, prepend. cbn [events app]. eexists. reflexivity.
Qed.

Lemma accumulate_keeps_with_state_from_function_witness :
  let kw := [("scale", VInt 2)] in
  kwargs_has "with_state" kw = false
  /\ acc_with_state (mkAccumulate 5 add false (kwargs_del "with_state" kw)
                       (kwargs_get "with_state" (VBool false) kw) [])
     = VBool false.
Proof.
  intros kw. split; [ reflexivity | ].
  exact (proj1 (proj2 (proj2 (proj2 (proj2
           (accumulate_keeps_with_state_from_function
              5 add (VInt 0) false kw [] (VInt 1) [] empty_world)))))
           eq_refl).
Defined.

(** ** starmap *)

(** X4. [starmap.update] never fails because of the function or of the
    item: it emits a new handle.  For a local item and local options the
    handle resolves to the function called on the unpacked item and the
    options without [stream_name]; when the item cannot be unpacked it
    resolves to [TypeError]. *)
Theorem starmap_update_applies_to_unpacked_item
    (f : pyfun) (kw : kwargs) (ds : list consumer)
    (x : value) (md : metadata) (w : World) :
  local x = true ->
  closed_kwargs 0 kw = true ->
  let kw' := kwargs_del "stream_name" kw in
  let node := starmap_init f kw ds in
  let k := length (futures w) in
  let out := rbind (unpack x) (fun items => f items kw') in
  let w1 := set_futures (futures w ++ [out]) w in
  starmap_update node x md w
  = then_emit [ESubmit (apply f) [x; VDict kw'] [] k] ds (VFuture k) md w1
  /\ resolve (futures w1) (VFuture k) = out
  /\ kwargs_has "stream_name" kw' = false
  /\ (unpack x = Raise TypeError -> resolve (futures w1) (VFuture k) = Raise TypeError).
Proof.
  intros Hx Hkw kw' node k out w1.
  assert (Hcall : remote_call (futures w) (apply f) [x; VDict kw'] [] = out).
  { rewrite remote_call_local; [ reflexivity | | reflexivity ].
    cbn [forallb]. rewrite Hx, andb_true_r. cbn [andb].
    exact (closed_kwargs_del 0 "stream_name" kw Hkw). }
  assert (Hres : resolve (futures w1) (VFuture k) = out).
  { unfold w1, k. cbn [futures set_futures]. apply resolve_last. }
  split; [ | split; [ exact Hres | split; [ apply kwargs_has_del | ] ] ].
  - unfold starmap_update. step (submit_run _ _ _ w).
    cbn [starmap_func starmap_kwargs starmap_downstreams node starmap_init].
    fold kw'. rewrite Hcall. reflexivity.
  - intros Hun. rewrite Hres. unfold out. by rewrite Hun.
Qed.

Lemma starmap_update_applies_to_unpacked_item_witness :
  let w1 := set_futures [Raise TypeError] empty_world in
  local (VInt 5) = true /\ closed_kwargs 0 [] = true
  /\ unpack (VInt 5) = Raise TypeError
  /\ resolve (futures w1) (VFuture 0) = Raise TypeError.
Proof.
  intros w1.
  split; [ reflexivity | split; [ reflexivity | split; [ reflexivity | ] ] ].
  exact (proj2 (proj2 (proj2 (starmap_update_applies_to_unpacked_item
                                add [] [] (VInt 5) [] empty_world
                                eq_refl eq_refl)))
               eq_refl).
Defined.

Example starmap_of_a_pair :
  let node := starmap_init add [("stream_name", VStr "sum")] [] in
  let r := starmap_update node (VTuple [VInt 1; VInt 2]) [] empty_world in
  outcome r = Ok (VList []) /\ futures (final r) = [Ok (VInt 3)].
Proof. split; reflexivity. Qed.

(** ** The fold from a start value *)

Lemma events_bind {A B} (m : M A) (f : A -> M B) w :
  exists rest, events (bind m f w) = events (m w) ++ rest.
Proof.
  unfold bind. destruct (outcome (m w)); cbn [events].
  - eexists. reflexivity.
  - exists []. by rewrite app_nil_r.
Qed.

Lemma events_bind_ok {A B} (m : M A) (f : A -> M B) w a :
  outcome (m w) = Ok a ->
  events (bind m f w) = events (m w) ++ events (f a (final (m w))).
Proof. intros H. unfold bind. by rewrite H. Qed.

Lemma accumulate_init_run self f start rs kw ds w :
  accumulate_init self f (Some start) rs kw ds w
  = mkRun (Ok (mkAccumulate self f rs (kwargs_del "with_state" kw)
                 (kwargs_get "with_state" (VBool false) kw) ds))
          (set_attrs (<[self := start]> (attrs w)) w) [].
Proof. reflexivity. Qed.

Lemma running_fold_raise store self e xs :
  running_fold store self (Raise e) xs = Raise e.
Proof.
  unfold running_fold. induction xs as [ | x xs IH ]; [ done | ].
  cbn [foldl]. unfold next_state at 2. cbn [fold_call rbind item_of].
  destruct (acc_returns_state self); exact IH.
Qed.

(** X5. A fold node built with a start value has no first item of its
    own: the first item is submitted with the start value as the state,
    and once all the items have been processed the state resolves to the
    running left fold of the state function from the start value. *)
Theorem accumulate_fold_from_start
    (self : node_id) (f : pyfun) (start : value) (rs : bool) (kw : kwargs)
    (ds : list consumer) (md : metadata) (w : World)
    (xs : list value) (outs : list value) :
  let node := mkAccumulate self f rs (kwargs_del "with_state" kw)
                (kwargs_get "with_state" (VBool false) kw) ds in
  let r := bind (accumulate_init self f (Some start) rs kw ds)
                (fun n => feed (accumulate_update n) md xs) w in
  Forall (quiet self) ds ->
  closed (length (futures w)) start = true ->
  forallb (closed (length (futures w))) xs = true ->
  closed_kwargs (length (futures w)) kw = true ->
  outcome r = Ok outs ->
  (exists st,
     attrs (final r) !! self = Some st
     /\ resolve (futures (final r)) st
        = running_fold (futures w) node (resolve (futures w) start) xs)
  /\ match xs with
     | [] => events r = []
     | x0 :: _ =>
         exists rest,
           events r = ESubmit f [start; x0] (kwargs_del "with_state" kw)
                              (length (futures w)) :: rest
     end.
Proof.
  intros node r Hq Hstart Hxs Hkw Hok.
  set (w0 := set_attrs (<[self := start]> (attrs w)) w).
  assert (Hr : r = feed (accumulate_update node) md xs w0).
  { unfold r. step (accumulate_init_run self f start rs kw ds w).
    apply prepend_nil. }
  assert (Hst : attrs w0 !! acc_self node = Some start).
  { unfold w0. cbn [attrs set_attrs]. apply lookup_insert_eq. }
  rewrite Hr in Hok |- *. split.
  - apply (feed_running_fold node md (futures w) Hq
             (closed_kwargs_del _ "with_state" kw Hkw) xs w0 start outs);
      [ exists []; by rewrite app_nil_r | exact Hst | exact Hxs | exact Hok ].
  - destruct xs as [ | x0 xs' ]; [ reflexivity | ].
    unfold feed. cbn [mapM].
    destruct (events_bind (accumulate_update node x0 md)
                (fun b => bind (mapM (fun x => accumulate_update node x md) xs')
                               (fun bs => ret (b :: bs))) w0) as [ rest -> ].
    destruct rs.
    + rewrite (accumulate_update_pair_run node x0 md w0 start Hst eq_refl).
      unfold then_emit, prepend. cbn [events app]. eexists. reflexivity.
    + rewrite (accumulate_update_plain_run node x0 md w0 start Hst eq_refl).
      unfold then_emit, prepend. cbn [events app]. eexists. reflexivity.
Qed.

Lemma accumulate_fold_from_start_witness :
  let items := [VInt 1; VInt 2; VInt 3] in
  let r := bind (accumulate_init 5 add (Some (VInt 10)) false [] [sink identity])
                (fun n => feed (accumulate_update n) [] items) empty_world in
  Forall (quiet 5) [sink identity]
  /\ closed 0 (VInt 10) = true
  /\ forallb (closed 0) items = true
  /\ closed_kwargs 0 [] = true
  /\ outcome r = Ok [VList [VFuture 0]; VList [VFuture 1]; VList [VFuture 2]]
  /\ exists st, attrs (final r) !! 5%nat = Some st
                /\ resolve (futures (final r)) st = Ok (VInt 16).
Proof.
  intros items r.
  assert (Hq : Forall (quiet 5) [sink identity]).
  { constructor; [ apply sink_quiet | constructor ]. }
  split; [ exact Hq | ].
  split; [ reflexivity | split; [ reflexivity | split; [ reflexivity | ] ] ].
  split; [ reflexivity | ].
  exact (proj1 (accumulate_fold_from_start 5 add (VInt 10) false []
                  [sink identity] [] empty_world items
                  [VList [VFuture 0]; VList [VFuture 1]; VList [VFuture 2]]
                  Hq eq_refl eq_refl eq_refl eq_refl)).
Defined.

Lemma feed_length (u : value -> metadata -> M value) md xs :
  forall w outs, outcome (feed u md xs w) = Ok outs -> length outs = length xs.
Proof.
  induction xs as [ | x xs IH ]; intros w outs Hok.
  - cbn in Hok. by injection Hok as <-.
  - pose proof Hok as Hok'.
    destruct (feed_cons_ok _ _ _ _ _ _ Hok) as (o & os & Ho & Hrest & _).
    unfold feed in Hok', Ho, Hrest. cbn [mapM] in Hok'.
    rewrite outcome_bind, Ho, outcome_bind, Hrest in Hok'. cbn in Hok'.
    injection Hok' as <-. cbn [length]. f_equal. by apply (IH _ _ Hrest).
Qed.

Lemma next_state_raise store self e x :
  next_state store self (Raise e) x = Raise e.
Proof. unfold next_state. cbn. by destruct (acc_returns_state self). Qed.

Lemma submissions_app l1 l2 :
  submissions (l1 ++ l2) = (submissions l1 + submissions l2)%nat.
Proof. unfold submissions. by rewrite List.filter_app, length_app. Qed.

Lemma mapM_reliable (ds : list consumer) v md :
  Forall reliable ds ->
  forall w, exists rs, outcome (mapM (fun d => d v md) ds w) = Ok rs.
Proof.
  induction 1 as [ | d ds Hd _ IH ]; intros w.
  - by exists [].
  - cbn [mapM]. rewrite outcome_bind. destruct (Hd v md w) as [ r -> ].
    rewrite outcome_bind. destruct (IH (final (d v md w))) as [ rs -> ].
    by exists (r :: rs).
Qed.

(** An emission to consumers that return, returns. *)
Lemma emit_reliable (ds : list consumer) v md w :
  Forall reliable ds -> exists res, outcome (_emit ds v md w) = Ok res.
Proof.
  intros Hr. unfold _emit.
  rewrite (bind_ok _ _ w tt w [EEmit v md]) by reflexivity.
  cbn [prepend outcome]. rewrite outcome_bind.
  destruct (mapM_reliable ds v md Hr w) as [ rs -> ]. by exists (VList rs).
Qed.

Lemma sink_identity_reliable : reliable (sink identity).
Proof. intros v md w. by exists v. Qed.

Section FailedFold.

(** A fold node whose consumers return and leave its state and the issued
    handles alone, and whose state has failed with [e]. *)
Variable self : accumulate_node.
Variable md : metadata.
Variable store : list (result value).
Variable e : exn.
Hypothesis quiet_downstreams :
  Forall (quiet (acc_self self)) (acc_downstreams self).
Hypothesis reliable_downstreams : Forall reliable (acc_downstreams self).
Hypothesis closed_options :
  closed_kwargs (length store) (acc_kwargs self) = true.

(** One item on a failed state: the routine submits the fold function
    with that state, returns, and the new state has failed with [e]. *)
Lemma accumulate_failed_step x w s :
  (exists more, futures w = store ++ more) ->
  attrs w !! acc_self self = Some s ->
  resolve (futures w) s = Raise e ->
  closed (length store) x = true ->
  let r := accumulate_update self x md w in
  (exists o, outcome r = Ok o)
  /\ (exists rest,
        events r = ESubmit (acc_func self) [s; x] (acc_kwargs self)
                           (length (futures w)) :: rest)
  /\ exists st,
       attrs (final r) !! acc_self self = Some st
       /\ (exists more, futures (final r) = store ++ more)
       /\ resolve (futures (final r)) st = Raise e.
Proof.
  intros Hw Hst Hres Hx r.
  destruct (accumulate_step self md store quiet_downstreams closed_options
              x w s Hw Hst Hx) as (st & Hattr & _ & Hmore & Hnext).
  fold r in Hattr, Hmore, Hnext.
  rewrite Hres, next_state_raise in Hnext.
  assert (Hrun : exists own payload w1,
            r = then_emit (ESubmit (acc_func self) [s; x] (acc_kwargs self)
                                   (length (futures w)) :: own)
                          (acc_downstreams self) payload md w1).
  { unfold r. destruct (acc_returns_state self) eqn:Hrs.
    - rewrite (accumulate_update_pair_run self x md w s Hst Hrs).
      eexists _, _, _. reflexivity.
    - rewrite (accumulate_update_plain_run self x md w s Hst Hrs).
      eexists _, _, _. reflexivity. }
  destruct Hrun as (own & payload & w1 & Hrun).
  split; [ | split ].
  - rewrite Hrun. unfold then_emit. cbn [prepend outcome].
    exact (emit_reliable _ payload md w1 reliable_downstreams).
  - rewrite Hrun. unfold then_emit. cbn [prepend events app].
    eexists. reflexivity.
  - exists st. split; [ exact Hattr | split; [ exact Hmore | exact Hnext ] ].
Qed.

Lemma feed_failed xs :
  forall w s,
    (exists more, futures w = store ++ more) ->
    attrs w !! acc_self self = Some s ->
    resolve (futures w) s = Raise e ->
    forallb (closed (length store)) xs = true ->
    let r := feed (accumulate_update self) md xs w in
    (exists outs, outcome r = Ok outs /\ length outs = length xs)
    /\ (length xs <= submissions (events r))%nat
    /\ exists st,
         attrs (final r) !! acc_self self = Some st
         /\ resolve (futures (final r)) st = Raise e.
Proof.
  induction xs as [ | x xs IH ]; intros w s Hw Hst Hres Hxs r; unfold r.
  - cbn. split; [ by exists [] | split; [ lia | by exists s ] ].
  - cbn [forallb] in Hxs. apply andb_prop in Hxs as [ Hx Hxs ].
    destruct (accumulate_failed_step x w s Hw Hst Hres Hx)
      as ((o & Ho) & (rest & Hev) & (st & Hattr & Hmore & Hfail)).
    destruct (IH _ st Hmore Hattr Hfail Hxs)
      as ((os & Hos & Hlen) & Hsub & Hfinal).
    unfold feed in *. cbn [mapM].
    rewrite outcome_bind, final_bind, Ho, outcome_bind, final_bind, Hos.
    rewrite (events_bind_ok _ _ _ o Ho), (events_bind_ok _ _ _ os Hos).
    cbn [ret outcome final events]. rewrite app_nil_r, submissions_app, Hev.
    split; [ | split; [ | exact Hfinal ] ].
    + exists (o :: os). split; [ done | cbn [length]; by rewrite Hlen ].
    + change (submissions (ESubmit (acc_func self) [s; x] (acc_kwargs self)
                                   (length (futures w)) :: rest))
        with (S (submissions rest)).
      cbn [length]. lia.
Qed.

End FailedFold.

(** X6. A fold does not recover from a failed step, and the routine does
    not raise because of it.  When the state is the handle of a failed
    computation and the downstream consumers return, [accumulate.update]
    returns for every further item, having submitted the fold function with
    the failed state (at least one submission per item), and the state
    afterwards still resolves to the same exception. *)
Theorem accumulate_failure_is_final
    (self : accumulate_node) (md : metadata) (w : World) (s : value)
    (e : exn) (xs : list value) :
  Forall (quiet (acc_self self)) (acc_downstreams self) ->
  Forall reliable (acc_downstreams self) ->
  attrs w !! acc_self self = Some s ->
  resolve (futures w) s = Raise e ->
  forallb (closed (length (futures w))) xs = true ->
  closed_kwargs (length (futures w)) (acc_kwargs self) = true ->
  let r := feed (accumulate_update self) md xs w in
  (exists outs, outcome r = Ok outs /\ length outs = length xs)
  /\ (length xs <= submissions (events r))%nat
  /\ (exists st,
        attrs (final r) !! acc_self self = Some st
        /\ resolve (futures (final r)) st = Raise e)
  /\ match xs with
     | [] => events r = []
     | x :: _ =>
         exists rest,
           events r = ESubmit (acc_func self) [s; x] (acc_kwargs self)
                              (length (futures w)) :: rest
     end.
Proof.
  intros Hq Hrel Hst Hres Hxs Hkw r.
  assert (Hw : exists more, futures w = futures w ++ more).
  { exists []. by rewrite app_nil_r. }
  destruct (feed_failed self md (futures w) e Hq Hrel Hkw xs w s Hw Hst Hres Hxs)
    as (Hout & Hsub & Hfinal).
  split; [ exact Hout | split; [ exact Hsub | split; [ exact Hfinal | ] ] ].
  destruct xs as [ | x xs' ]; [ reflexivity | ].
  cbn [forallb] in Hxs. apply andb_prop in Hxs as [ Hx _ ].
  destruct (accumulate_failed_step self md (futures w) e Hq Hrel Hkw
              x w s Hw Hst Hres Hx) as (_ & (rest & Hev) & _).
  unfold r, feed. cbn [mapM].
  destruct (events_bind (accumulate_update self x md)
              (fun b => bind (mapM (fun y => accumulate_update self y md) xs')
                             (fun bs => ret (b :: bs))) w) as [ rest' -> ].
  rewrite Hev. cbn [app]. eexists. reflexivity.
Qed.

Lemma accumulate_failure_is_final_witness :
  let node := mkAccumulate 5 add false [] (VBool false) [sink identity] in
  let w := set_attrs (<[5%nat := VFuture 0]> ∅)
                     (set_futures [Raise (RemoteError "boom")] empty_world) in
  let items := [VInt 1; VInt 2] in
  let r := feed (accumulate_update node) [] items w in
  Forall (quiet 5) [sink identity]
  /\ Forall reliable [sink identity]
  /\ attrs w !! 5%nat = Some (VFuture 0)
  /\ resolve (futures w) (VFuture 0) = Raise (RemoteError "boom")
  /\ forallb (closed 1) items = true
  /\ closed_kwargs 1 [] = true
  /\ (2 <= submissions (events r))%nat
  /\ exists st, attrs (final r) !! 5%nat = Some st
                /\ resolve (futures (final r)) st = Raise (RemoteError "boom").
Proof.
  intros node w items r.
  assert (Hq : Forall (quiet 5) [sink identity]).
  { constructor; [ apply sink_quiet | constructor ]. }
  assert (Hrel : Forall reliable [sink identity]).
  { constructor; [ apply sink_identity_reliable | constructor ]. }
  split; [ exact Hq | split; [ exact Hrel | ] ].
  split; [ reflexivity | split; [ reflexivity | split; [ reflexivity | ] ] ].
  split; [ reflexivity | ].
  pose proof (accumulate_failure_is_final node [] w (VFuture 0)
                (RemoteError "boom") items
                Hq Hrel eq_refl eq_refl eq_refl eq_refl) as H.
  cbv zeta in H. destruct H as (_ & Hsub & Hfinal & _).
  split; [ exact Hsub | exact Hfinal ].
Defined.

Example accumulate_failure_reaches_gather :
  let node := mkAccumulate 5 add false [] (VBool false)
                [gather_update (mkGather [sink identity])] in
  let w := set_attrs (<[5%nat := VFuture 0]> ∅)
                     (set_futures [Raise (RemoteError "boom")] empty_world) in
  outcome (accumulate_update node (VInt 1) [] w) = Raise (RemoteError "boom").
Proof. reflexivity. Qed.

(** ** Accounts of retains and releases *)

Lemma then_emit_release_account own ds v md w1 t :
  let e := _emit ds v md w1 in
  let r := then_emit_release own ds v md w1 in
  retains t (events r) = (retains t own + retains t (events e))%nat
  /\ match outcome e with
     | Ok res =>
         outcome r = Ok res
         /\ releases t (events r)
            = (releases t own + releases t (events e) + occurrences t md)%nat
         /\ outstanding (refs (final r)) t
            = (outstanding (refs (final e)) t - occurrences t md)%nat
     | Raise ex =>
         outcome r = Raise ex
         /\ releases t (events r) = (releases t own + releases t (events e))%nat
         /\ final r = final e
     end.
Proof.
  intros e r. unfold r, then_emit_release. fold e.
  destruct (outcome e) as [ res | ex ]; cbn [outcome final events].
  - rewrite !retains_app, !releases_app, retains_release_events,
      releases_release_events.
    split; [ lia | split; [ done | split; [ lia | ] ] ].
    apply refs_release_all.
  - rewrite !retains_app, !releases_app. split; [ lia | done ].
Qed.

(** X7. [gather.update] retains the item's tokens once each, then resolves.
    If the resolution fails it emits nothing, releases nothing and leaves
    every token retained; if the emission raises it releases nothing
    either; only when the emission returns does it release each token,
    once. *)
Theorem gather_update_releases_iff_emission_returns
    (self : gather_node) (x : value) (md : metadata) (w : World) (t : token) :
  let r := gather_update self x md w in
  match resolve (futures w) x with
  | Raise ex =>
      outcome r = Raise ex
      /\ no_emit (events r) = true
      /\ retains t (events r) = occurrences t md
      /\ releases t (events r) = 0%nat
      /\ outstanding (refs (final r)) t
         = (outstanding (refs w) t + occurrences t md)%nat
  | Ok v =>
      let e := _emit (gather_downstreams self) v md (retain_all md w) in
      retains t (events r) = (occurrences t md + retains t (events e))%nat
      /\ match outcome e with
         | Ok res =>
             outcome r = Ok res
             /\ releases t (events r)
                = (occurrences t md + releases t (events e))%nat
             /\ outstanding (refs (final r)) t
                = (outstanding (refs (final e)) t - occurrences t md)%nat
         | Raise ex =>
             outcome r = Raise ex
             /\ releases t (events r) = releases t (events e)
             /\ final r = final e
         end
  end.
Proof.
  intros r. unfold r. rewrite gather_update_run.
  destruct (resolve (futures w) x) as [ v | ex ].
  - set (e := _emit (gather_downstreams self) v md (retain_all md w)).
    pose proof (then_emit_release_account ((ERetain <$> md) ++ [EGather x])
                  (gather_downstreams self) v md (retain_all md w) t) as Hacc.
    cbv zeta in Hacc. fold e in Hacc.
    rewrite retains_app, releases_app, retains_retain_events,
      releases_retain_events in Hacc.
    change (retains t [EGather x]) with 0%nat in Hacc.
    change (releases t [EGather x]) with 0%nat in Hacc.
    destruct Hacc as [ Hret Hrest ]. split; [ lia | ].
    destruct (outcome e) as [ res | ex ].
    + destruct Hrest as (Ho & Hrel & Hout). split; [ exact Ho | split; [ lia | exact Hout ] ].
    + destruct Hrest as (Ho & Hrel & Hfin). split; [ exact Ho | split; [ lia | exact Hfin ] ].
  - cbn [outcome final events].
    rewrite retains_app, releases_app, retains_retain_events,
      releases_retain_events, no_emit_app, no_emit_retain_events.
    split; [ done | split; [ done | split; [ cbn; lia | split; [ done | ] ] ] ].
    apply refs_retain_all.
Qed.

(** X8. [scatter.update] retains the item's tokens once each, scatters and
    emits; it releases each token, once, only when the emission returns:
    when a downstream consumer raises, the routine ends with the tokens
    still retained. *)
Theorem scatter_update_releases_iff_emission_returns
    (self : scatter_node) (x : value) (md : metadata) (w : World) (t : token) :
  let r := scatter_update self x md w in
  let w1 := set_futures (futures w ++ [Ok x]) (retain_all md w) in
  let e := _emit (scatter_downstreams self) (VFuture (length (futures w))) md w1 in
  retains t (events r) = (occurrences t md + retains t (events e))%nat
  /\ outstanding (refs w1) t = (outstanding (refs w) t + occurrences t md)%nat
  /\ match outcome e with
     | Ok res =>
         outcome r = Ok res
         /\ releases t (events r) = (occurrences t md + releases t (events e))%nat
         /\ outstanding (refs (final r)) t
            = (outstanding (refs (final e)) t - occurrences t md)%nat
     | Raise ex =>
         outcome r = Raise ex
         /\ releases t (events r) = releases t (events e)
         /\ final r = final e
     end.
Proof.
  intros r w1 e. unfold r. rewrite scatter_update_run. fold w1.
  pose proof (then_emit_release_account
                ((ERetain <$> md) ++ [EScatter (VList [x])])
                (scatter_downstreams self) (VFuture (length (futures w)))
                md w1 t) as Hacc.
  cbv zeta in Hacc. fold e in Hacc.
  rewrite retains_app, releases_app, retains_retain_events,
    releases_retain_events in Hacc.
  change (retains t [EScatter (VList [x])]) with 0%nat in Hacc.
  change (releases t [EScatter (VList [x])]) with 0%nat in Hacc.
  destruct Hacc as [ Hret Hrest ]. split; [ lia | split ].
  - unfold w1. cbn [refs set_futures]. apply refs_retain_all.
  - destruct (outcome e) as [ res | ex ].
    + destruct Hrest as (Ho & Hrel & Hout). split; [ exact Ho | split; [ lia | exact Hout ] ].
    + destruct Hrest as (Ho & Hrel & Hfin). split; [ exact Ho | split; [ lia | exact Hfin ] ].
Qed.

(** ** Pipelines *)

Lemma emitted_app l1 l2 : emitted (l1 ++ l2) = emitted l1 ++ emitted l2.
Proof. unfold emitted. apply flat_map_app. Qed.

Lemma emitted_retain_events md : emitted (ERetain <$> md) = [].
Proof. induction md as [ | t md IH ]; csimpl; done. Qed.

Lemma remote_call_handle store (f : pyfun) k v args kw :
  resolve store (VFuture k) = Ok v ->
  forallb local args = true ->
  closed_kwargs 0 kw = true ->
  remote_call store f (VFuture k :: args) kw = f (v :: args) kw.
Proof.
  intros Hk Ha Hkw. unfold remote_call. cbn [rmap]. rewrite Hk.
  cbn [rbind]. by rewrite resolve_all_local, resolve_kwargs_local.
Qed.

(** The run of [map.update] with a gather node as its consumer. *)
Lemma map_gather_run (f : pyfun) args kw (ds : list consumer) x md w :
  let k := length (futures w) in
  let out := remote_call (futures w) f (x :: args) kw in
  let w1 := set_futures (futures w ++ [out]) w in
  let own := [ESubmit f (x :: args) kw k; EEmit (VFuture k) md]
             ++ (ERetain <$> md) ++ [EGather (VFuture k)] in
  map_update (map_init f args kw [gather_update (mkGather ds)]) x md w
  = match out with
    | Raise ex => mkRun (Raise ex) (retain_all md w1) own
    | Ok y =>
        let e := _emit ds y md (retain_all md w1) in
        match outcome e with
        | Ok res => mkRun (Ok (VList [res])) (release_all md (final e))
                          (own ++ events e ++ (ERelease <$> md))
        | Raise ex => mkRun (Raise ex) (final e) (own ++ events e)
        end
    end.
Proof.
  intros k out w1 own. unfold map_update.
  step (submit_run _ _ _ w).
  cbn [map_init map_func map_args map_kwargs map_downstreams].
  fold k out w1. rewrite emit_single, gather_update_run.
  assert (Hres : resolve (futures w1) (VFuture k) = out).
  { unfold w1, k. cbn [futures set_futures]. apply resolve_last. }
  rewrite Hres. destruct out as [ y | ex ].
  - unfold then_emit_release. cbn [gather_downstreams].
    destruct (outcome (_emit ds y md (retain_all md w1))) as [ res | ex ];
      cbn [outcome final events prepend]; unfold own;
      rewrite <- ?app_assoc; reflexivity.
  - cbn [outcome final events prepend]. unfold own.
    rewrite <- ?app_assoc. reflexivity.
Qed.

(** X9. With a gather node as the consumer of a map node, the value of the
    function reaches the consumers of the gather node.  When the function
    raised, [map.update] itself raises that exception, at the gather: the
    handle is the only value emitted, no consumer of the gather node is
    called, and every token of the item stays retained. *)
Theorem map_then_gather
    (f : pyfun) (args : list value) (kw : kwargs) (ds : list consumer)
    (x : value) (md : metadata) (w : World) :
  let k := length (futures w) in
  let out := remote_call (futures w) f (x :: args) kw in
  let w1 := set_futures (futures w ++ [out]) w in
  let own := [ESubmit f (x :: args) kw k; EEmit (VFuture k) md]
             ++ (ERetain <$> md) ++ [EGather (VFuture k)] in
  let r := map_update (map_init f args kw [gather_update (mkGather ds)])
                      x md w in
  match out with
  | Raise ex =>
      outcome r = Raise ex
      /\ events r = own
      /\ emitted (events r) = [VFuture k]
      /\ forall t, releases t (events r) = 0%nat
                   /\ outstanding (refs (final r)) t
                      = (outstanding (refs w) t + occurrences t md)%nat
  | Ok y =>
      let e := _emit ds y md (retain_all md w1) in
      r = match outcome e with
          | Ok res => mkRun (Ok (VList [res])) (release_all md (final e))
                            (own ++ events e ++ (ERelease <$> md))
          | Raise ex => mkRun (Raise ex) (final e) (own ++ events e)
          end
  end.
Proof.
  intros k out w1 own r.
  pose proof (map_gather_run f args kw ds x md w) as Hrun.
  cbv zeta in Hrun. fold k out w1 own r in Hrun.
  destruct out as [ y | ex ] eqn:Hout; [ exact Hrun | ].
  rewrite Hrun. cbn [outcome final events].
  split; [ done | split; [ done | split ] ].
  - unfold own. rewrite !emitted_app, emitted_retain_events. reflexivity.
  - intros t. split.
    + unfold own. rewrite !releases_app, releases_retain_events. reflexivity.
    + rewrite refs_retain_all. reflexivity.
Qed.

Example map_then_gather_doubles :
  let node := map_init double [] [] [gather_update (mkGather [sink identity])] in
  let r := map_update node (VInt 3) [7%nat] empty_world in
  emitted (events r) = [VFuture 0; VInt 6]
  /\ refs (final r) = refs empty_world.
Proof. split; reflexivity. Qed.

(** X10. The pipeline of the class documentation, scatter, map, gather,
    on a local value with local extra arguments: the consumers of the
    gather node receive the value of the function on the item.  When the
    function raises, [scatter.update] raises that exception after the two
    handles have been emitted, nothing is released, and every token of the
    item is left with two retains outstanding, the one of the scatter node
    and the one of the gather node. *)
Theorem scatter_map_gather
    (f : pyfun) (args : list value) (kw : kwargs) (ds : list consumer)
    (v : value) (md : metadata) (w : World) :
  forallb local args = true ->
  closed_kwargs 0 kw = true ->
  let pipeline :=
    mkScatter [map_update (map_init f args kw [gather_update (mkGather ds)])] in
  let k := length (futures w) in
  let r := scatter_update pipeline v md w in
  let own := (ERetain <$> md)
             ++ [EScatter (VList [v]); EEmit (VFuture k) md;
                 ESubmit f (VFuture k :: args) kw (S k);
                 EEmit (VFuture (S k)) md]
             ++ (ERetain <$> md) ++ [EGather (VFuture (S k))] in
  match f (v :: args) kw with
  | Raise ex =>
      outcome r = Raise ex
      /\ events r = own
      /\ emitted (events r) = [VFuture k; VFuture (S k)]
      /\ forall t, releases t (events r) = 0%nat
                   /\ outstanding (refs (final r)) t
                      = (outstanding (refs w) t + 2 * occurrences t md)%nat
  | Ok y =>
      let w1 := set_futures (futures w ++ [Ok v]) (retain_all md w) in
      let w2 := set_futures (futures w1 ++ [Ok y]) w1 in
      let e := _emit ds y md (retain_all md w2) in
      r = match outcome e with
          | Ok res =>
              mkRun (Ok (VList [VList [res]]))
                    (release_all md (release_all md (final e)))
                    (own ++ events e ++ (ERelease <$> md) ++ (ERelease <$> md))
          | Raise ex => mkRun (Raise ex) (final e) (own ++ events e)
          end
  end.
Proof.
  intros Ha Hkw pipeline k r own.
  set (w1 := set_futures (futures w ++ [Ok v]) (retain_all md w)).
  assert (Hk1 : length (futures w1) = S k).
  { unfold w1, k. cbn [futures set_futures]. rewrite length_app. simpl. lia. }
  assert (Hcall : remote_call (futures w1) f (VFuture k :: args) kw
                  = f (v :: args) kw).
  { apply remote_call_handle; [ | exact Ha | exact Hkw ].
    unfold w1, k. cbn [futures set_futures]. apply resolve_last. }
  assert (Hr : r = then_emit_release
                     ((ERetain <$> md) ++ [EScatter (VList [v])])
                     (scatter_downstreams pipeline) (VFuture k) md w1).
  { unfold r. apply scatter_update_run. }
  unfold then_emit_release in Hr. cbn [scatter_downstreams pipeline] in Hr.
  rewrite emit_single in Hr.
  pose proof (map_gather_run f args kw ds (VFuture k) md w1) as Hmg.
  cbv zeta in Hmg. rewrite Hk1, Hcall in Hmg. rewrite Hmg in Hr. clear Hmg.
  destruct (f (v :: args) kw) as [ y | ex ].
  - cbv zeta.
    set (e := _emit ds y md (retain_all md (set_futures (futures w1 ++ [Ok y]) w1)))
      in *.
    rewrite Hr. destruct (outcome e) as [ res | ex ];
      cbn [outcome final events prepend]; unfold own;
      rewrite <- ?app_assoc; cbn [app]; rewrite <- ?app_assoc; reflexivity.
  - cbn [outcome final events prepend] in Hr.
    assert (Hev : events r = own).
    { rewrite Hr. cbn [events]. unfold own. rewrite <- ?app_assoc. reflexivity. }
    split; [ by rewrite Hr | split; [ exact Hev | split ] ].
    + rewrite Hev. unfold own.
      rewrite !emitted_app, !emitted_retain_events. reflexivity.
    + intros t. split.
      * rewrite Hev. unfold own.
        rewrite !releases_app, !releases_retain_events. reflexivity.
      * rewrite Hr. cbn [final]. rewrite refs_retain_all.
        cbn [refs set_futures]. unfold w1. cbn [refs set_futures].
        rewrite refs_retain_all. lia.
Qed.

Lemma scatter_map_gather_witness :
  let pipeline :=
    mkScatter [map_update (map_init (failing (RemoteError "boom")) [] []
                                    [gather_update (mkGather [sink identity])])] in
  let r := scatter_update pipeline (VInt 1) [7%nat] empty_world in
  forallb local [] = true /\ closed_kwargs 0 [] = true
  /\ outcome r = Raise (RemoteError "boom")
  /\ outstanding (refs (final r)) 7 = 2%nat.
Proof.
  intros pipeline r.
  split; [ reflexivity | split; [ reflexivity | ] ].
  pose proof (scatter_map_gather (failing (RemoteError "boom")) [] []
                [sink identity] (VInt 1) [7%nat] empty_world eq_refl eq_refl)
    as H.
  cbv zeta in H. cbn [failing] in H.
  destruct H as (Ho & _ & _ & Hacc).
  split; [ exact Ho | ]. exact (proj2 (Hacc 7%nat)).
Defined.

Example scatter_map_gather_doubles :
  let pipeline :=
    mkScatter [map_update (map_init double [] []
                                    [gather_update (mkGather [sink identity])])] in
  let r := scatter_update pipeline (VInt 3) [7%nat] empty_world in
  emitted (events r) = [VFuture 0; VFuture 1; VInt 6]
  /\ refs (final r) = refs empty_world
  /\ acked (final r) = [7%nat].
Proof. repeat split. Qed.

(** X11. A filter that receives a handle tests the value behind it and
    forwards the handle: with local fixed arguments, the predicate's verdict
    on the handle of [v] is the predicate called on [v], and what goes
    downstream when the item passes is the handle itself, never [v] and
    never the handle of the verdict. *)
Theorem filter_tests_value_forwards_handle
    (self : filter_node) (k : key) (v : value) (md : metadata) (w : World) :
  futures w !! k = Some (Ok v) ->
  forallb local (filter_args self) = true ->
  closed_kwargs 0 (filter_kwargs self) = true ->
  let r := filter_update self (VFuture k) md w in
  verdict self (VFuture k) w
  = filter_predicate self (v :: filter_args self) (filter_kwargs self)
  /\ if passes self (VFuture k) w
     then exists own w1,
            no_emit own = true
            /\ r = then_emit_finally own (filter_downstreams self)
                                     (VFuture k) md w1
     else no_emit (events r) = true.
Proof.
  intros Hk Ha Hkw r. split.
  - unfold verdict. apply remote_call_handle; [ | exact Ha | exact Hkw ].
    cbn [resolve]. by rewrite Hk.
  - unfold r. rewrite filter_update_run. unfold passes.
    destruct (verdict self (VFuture k) w) as [ b | e ]; [ destruct (truthy b) | ].
    + eexists _, _. split; [ | reflexivity ]. by autorewrite with events.
    + cbn [events]. by autorewrite with events.
    + cbn [events]. by autorewrite with events.
Qed.

Lemma filter_tests_value_forwards_handle_witness :
  let node := mkFilter is_positive [] [] VNone [sink identity] in
  let w := set_futures [Ok (VInt 3)] empty_world in
  futures w !! 0%nat = Some (Ok (VInt 3))
  /\ forallb local [] = true /\ closed_kwargs 0 [] = true
  /\ verdict node (VFuture 0) w = Ok (VBool true).
Proof.
  intros node w.
  split; [ reflexivity | split; [ reflexivity | split; [ reflexivity | ] ] ].
  exact (proj1 (filter_tests_value_forwards_handle node 0 (VInt 3) [] w
                  eq_refl eq_refl eq_refl)).
Defined.

Example scatter_then_filter :
  let node := mkScatter [filter_update (mkFilter is_positive [] [] VNone [])] in
  let r := scatter_update node (VInt 3) [7%nat] empty_world in
  emitted (events r) = [VFuture 0; VFuture 0]
  /\ futures (final r) = [Ok (VInt 3); Ok (VBool true)]
  /\ refs (final r) = refs empty_world.
Proof. repeat split. Qed.

(** ** Sequences of items *)

Lemma emitted_release_events md : emitted (ERelease <$> md) = [].
Proof. induction md as [ | t md IH ]; csimpl; done. Qed.

Lemma sink_identity_emit x md w :
  _emit [sink identity] x md w
  = mkRun (Ok (VList [x])) w [EEmit x md; ECall identity [x]].
Proof. reflexivity. Qed.

(** One item through a filter whose consumer is a local sink. *)
Lemma filter_item_run (p : pyfun) args kw name x md w :
  local x = true ->
  forallb local args = true ->
  closed_kwargs 0 kw = true ->
  let r := filter_update (mkFilter p kw args name [sink identity]) x md w in
  outcome r = filtered p args kw x
  /\ refs (final r) = refs w
  /\ emitted (events r) = (if keeps p args kw x then [x] else []).
Proof.
  intros Hx Ha Hkw r. unfold r. rewrite filter_update_run.
  assert (Hv : verdict (mkFilter p kw args name [sink identity]) x w
               = p (x :: args) kw).
  { unfold verdict. cbn [filter_predicate filter_args filter_kwargs].
    apply remote_call_local; [ | exact Hkw ]. cbn [forallb]. by rewrite Hx, Ha. }
  rewrite Hv. unfold filtered, keeps.
  cbn [filter_predicate filter_args filter_kwargs filter_downstreams].
  destruct (p (x :: args) kw) as [ b | e ]; cbn [rbind];
    [ destruct (truthy b) | ].
  - unfold then_emit_finally. rewrite sink_identity_emit.
    cbn [outcome final events rbind].
    split; [ done | split ].
    + by apply release_all_retain_all.
    + rewrite !emitted_app, emitted_retain_events, emitted_release_events.
      reflexivity.
  - cbn [outcome final events rbind]. split; [ done | split ].
    + by apply release_all_retain_all.
    + rewrite !emitted_app, emitted_retain_events, emitted_release_events.
      reflexivity.
  - cbn [outcome final events rbind]. split; [ done | split ].
    + by apply release_all_retain_all.
    + rewrite !emitted_app, emitted_retain_events, emitted_release_events.
      reflexivity.
Qed.

(** X12. A filter over a sequence of local items, with a local sink as its
    consumer: the items handed downstream are those the predicate keeps, in
    the order they came; the first failure of the predicate ends the
    sequence with its exception; and in every case, failure included, the
    refcount table is left as it was found. *)
Theorem filter_over_a_sequence
    (p : pyfun) (args : list value) (kw : kwargs) (name : value)
    (md : metadata) (xs : list value) (w : World) :
  forallb local xs = true ->
  forallb local args = true ->
  closed_kwargs 0 kw = true ->
  let node := mkFilter p kw args name [sink identity] in
  let r := feed (filter_update node) md xs w in
  outcome r = rmap (filtered p args kw) xs
  /\ refs (final r) = refs w
  /\ (forall outs, outcome r = Ok outs ->
        emitted (events r) = List.filter (keeps p args kw) xs).
Proof.
  intros Hxs Ha Hkw node r. unfold r. clear r. revert w Hxs.
  induction xs as [ | x xs IH ]; intros w Hxs.
  - cbn. split; [ done | split; [ done | done ] ].
  - cbn [forallb] in Hxs. apply andb_prop in Hxs as [ Hx Hxs ].
    destruct (filter_item_run p args kw name x md w Hx Ha Hkw)
      as (Ho & Hrefs & Hem).
    fold node in Ho, Hrefs, Hem.
    unfold feed in *. cbn [mapM rmap List.filter].
    rewrite outcome_bind, final_bind, Ho.
    destruct (filtered p args kw x) as [ o | e ] eqn:Hf; cbn [rbind].
    + destruct (IH (final (filter_update node x md w)) Hxs)
        as (Ho' & Hrefs' & Hem').
      rewrite outcome_bind, final_bind, Ho'.
      split; [ | split ].
      * by destruct (rmap (filtered p args kw) xs).
      * destruct (rmap (filtered p args kw) xs); cbn [ret final];
          by rewrite Hrefs', Hrefs.
      * intros outs Hok.
        rewrite (events_bind_ok _ _ _ o) by (by rewrite Ho).
        destruct (rmap (filtered p args kw) xs) as [ os | e ] eqn:Hrest;
          [ | done ].
        rewrite (events_bind_ok _ _ _ os) by exact Ho'.
        cbn [ret events]. rewrite app_nil_r, emitted_app, Hem, (Hem' os Ho').
        by destruct (keeps p args kw x).
    + split; [ done | split; [ exact Hrefs | done ] ].
Qed.

Lemma filter_over_a_sequence_witness :
  let xs := [VInt 3; VInt (-1); VInt 5] in
  let node := mkFilter is_positive [] [] VNone [sink identity] in
  let r := feed (filter_update node) [7%nat] xs empty_world in
  forallb local xs = true /\ forallb local [] = true
  /\ closed_kwargs 0 [] = true
  /\ outcome r = Ok [VList [VInt 3]; VNone; VList [VInt 5]]
  /\ emitted (events r) = [VInt 3; VInt 5].
Proof.
  intros xs node r.
  split; [ reflexivity | split; [ reflexivity | split; [ reflexivity | ] ] ].
  split; [ reflexivity | ].
  exact (proj2 (proj2 (filter_over_a_sequence is_positive [] [] VNone [7%nat]
                         xs empty_world eq_refl eq_refl eq_refl))
               [VList [VInt 3]; VNone; VList [VInt 5]] eq_refl).
Defined.

Lemma remote_call_state store (f : pyfun) s acc x kw :
  resolve store s = Ok acc ->
  local x = true ->
  closed_kwargs 0 kw = true ->
  remote_call store f [s; x] kw = f [acc; x] kw.
Proof.
  intros Hs Hx Hkw. unfold remote_call. cbn [rmap].
  rewrite Hs, (resolve_local store x Hx). cbn [rbind].
  by rewrite resolve_kwargs_local.
Qed.

Lemma gather_to_sink_run x md w :
  gather_update (mkGather [sink identity]) x md w
  = match resolve (futures w) x with
    | Ok v => mkRun (Ok (VList [v])) (release_all md (retain_all md w))
                    (((ERetain <$> md) ++ [EGather x])
                     ++ [EEmit v md; ECall identity [v]] ++ (ERelease <$> md))
    | Raise e => mkRun (Raise e) (retain_all md w)
                       ((ERetain <$> md) ++ [EGather x])
    end.
Proof.
  rewrite gather_update_run. destruct (resolve (futures w) x); [ | done ].
  unfold then_emit_release. cbn [gather_downstreams].
  by rewrite sink_identity_emit.
Qed.

Section FoldThenGather.

Variable self : node_id.
Variable f : pyfun.
Variable kw : kwargs.
Variable md : metadata.
Hypothesis local_options : closed_kwargs 0 kw = true.

#[local] Abbreviation node := (fold_then_gather self f kw).

Lemma fold_gather_first x w :
  attrs w !! self = None ->
  local x = true ->
  let r := accumulate_update node x md w in
  outcome r = Ok (delivered x)
  /\ attrs (final r) !! self = Some x
  /\ refs (final r) = refs w.
Proof.
  intros Hnone Hx r. unfold r.
  rewrite (accumulate_update_first node x md w Hnone).
  unfold then_emit. cbn [acc_downstreams node fold_payload acc_with_state truthy].
  rewrite emit_single, gather_to_sink_run. cbn [futures set_attrs].
  rewrite (resolve_local (futures w) x Hx).
  cbn [outcome final events prepend].
  split; [ done | split ].
  - rewrite attrs_release_all, attrs_retain_all. cbn [attrs set_attrs acc_self].
    apply lookup_insert_eq.
  - match goal with
      | |- refs (release_all md (retain_all md ?w0)) = _ =>
          exact (release_all_retain_all md w0 _ eq_refl)
      end.
Qed.

Lemma fold_gather_next x w s acc :
  attrs w !! self = Some s ->
  resolve (futures w) s = Ok acc ->
  local x = true ->
  let r := accumulate_update node x md w in
  match f [acc; x] kw with
  | Ok y =>
      outcome r = Ok (delivered y)
      /\ (exists s', attrs (final r) !! self = Some s'
                     /\ resolve (futures (final r)) s' = Ok y)
      /\ refs (final r) = refs w
  | Raise e => outcome r = Raise e
  end.
Proof.
  intros Hst Hs Hx r. unfold r.
  rewrite (accumulate_update_plain_run node x md w s Hst eq_refl).
  cbn [acc_func acc_kwargs acc_downstreams fold_then_gather fold_payload
       acc_with_state truthy acc_self].
  rewrite (remote_call_state (futures w) f s acc x kw Hs Hx local_options).
  unfold then_emit. rewrite emit_single, gather_to_sink_run.
  cbn [futures set_attrs set_futures]. rewrite resolve_last.
  destruct (f [acc; x] kw) as [ y | e ]; cbn [outcome final events prepend].
  - split; [ done | split ].
    + exists (VFuture (length (futures w))).
      rewrite attrs_release_all, attrs_retain_all, futures_release_all,
        futures_retain_all.
      cbn [attrs futures set_attrs set_futures].
      split; [ apply lookup_insert_eq | apply resolve_last ].
    + match goal with
      | |- refs (release_all md (retain_all md ?w0)) = _ =>
          exact (release_all_retain_all md w0 _ eq_refl)
      end.
  - done.
Qed.

Lemma fold_gather_feed xs :
  forall w s acc,
    attrs w !! self = Some s ->
    resolve (futures w) s = Ok acc ->
    forallb local xs = true ->
    let r := feed (accumulate_update node) md xs w in
    outcome r = rbind (scan f kw acc xs) (fun ys => Ok (delivered <$> ys))
    /\ (forall outs, outcome r = Ok outs -> refs (final r) = refs w).
Proof.
  induction xs as [ | x xs IH ]; intros w s acc Hst Hs Hxs r; unfold r.
  - cbn. split; done.
  - cbn [forallb] in Hxs. apply andb_prop in Hxs as [ Hx Hxs ].
    pose proof (fold_gather_next x w s acc Hst Hs Hx) as Hstep.
    cbv zeta in Hstep. unfold feed in *. cbn [mapM scan].
    rewrite outcome_bind, final_bind.
    destruct (f [acc; x] kw) as [ y | e ]; cbn [rbind].
    + destruct Hstep as (Ho & (s' & Hst' & Hs') & Hrefs). rewrite Ho.
      destruct (IH _ s' y Hst' Hs' Hxs) as (Ho' & Hrefs').
      rewrite outcome_bind, final_bind, Ho'.
      destruct (scan f kw y xs) as [ ys | e ]; cbn [rbind].
      * split; [ done | ]. intros outs _. cbn [ret final].
        rewrite (Hrefs' _ Ho'). exact Hrefs.
      * split; done.
    + rewrite Hstep. split; done.
Qed.

End FoldThenGather.

(** X13. A fold node in the default configuration (no start value, a
    function that returns the state, no tuples) followed by a gather node
    and a local sink, on local items: the sink receives the first item and
    then the running values [f(x0, x1)], [f(f(x0, x1), x2)], ... in order;
    the first failure of the function ends the sequence with its exception,
    raised by the routine at the gather; and when all the items have gone
    through, the refcount table is as it was found. *)
Theorem accumulate_then_gather
    (self : node_id) (f : pyfun) (kw : kwargs) (md : metadata)
    (x0 : value) (xs : list value) (w : World) :
  attrs w !! self = None ->
  forallb local (x0 :: xs) = true ->
  closed_kwargs 0 kw = true ->
  let node := fold_then_gather self f kw in
  let r := feed (accumulate_update node) md (x0 :: xs) w in
  outcome r = rbind (scan f kw x0 xs)
                    (fun ys => Ok (delivered <$> (x0 :: ys)))
  /\ (forall outs, outcome r = Ok outs -> refs (final r) = refs w).
Proof.
  intros Hnone Hxs Hkw node r. unfold r.
  cbn [forallb] in Hxs. apply andb_prop in Hxs as [ Hx0 Hxs ].
  destruct (fold_gather_first self f kw md x0 w Hnone Hx0)
    as (Ho & Hst & Hrefs).
  fold node in Ho, Hst, Hrefs.
  destruct (fold_gather_feed self f kw md Hkw xs
              (final (accumulate_update node x0 md w)) x0 x0 Hst
              (resolve_local _ x0 Hx0) Hxs) as (Ho' & Hrefs').
  fold node in Ho', Hrefs'.
  unfold feed in *. cbn [mapM].
  rewrite outcome_bind, final_bind, Ho, outcome_bind, final_bind, Ho'.
  destruct (scan f kw x0 xs) as [ ys | e ]; cbn [rbind].
  - split; [ done | ]. intros outs _. cbn [ret final].
    rewrite (Hrefs' _ Ho'). exact Hrefs.
  - split; done.
Qed.

Lemma accumulate_then_gather_witness :
  let node := fold_then_gather 5 add [] in
  let r := feed (accumulate_update node) [7%nat] [VInt 1; VInt 2; VInt 3]
                empty_world in
  attrs empty_world !! 5%nat = None
  /\ forallb local [VInt 1; VInt 2; VInt 3] = true
  /\ closed_kwargs 0 [] = true
  /\ outcome r = Ok [delivered (VInt 1); delivered (VInt 3); delivered (VInt 6)].
Proof.
  intros node r.
  split; [ reflexivity | split; [ reflexivity | split; [ reflexivity | ] ] ].
  exact (proj1 (accumulate_then_gather 5 add [] [7%nat] (VInt 1)
                  [VInt 2; VInt 3] empty_world eq_refl eq_refl eq_refl)).
Defined.
